(** * GPT-2 graph transformer: a shallow embedding of [gpt2_transformer.py]

    The Python module rewrites an ONNX model in place.  Here the model is a
    record, every pass is a function from models to outcomes, and the Python
    exceptions the passes can raise are values of an outcome type.

    Embedded: [add_name], the lookup helpers, [find_all_fused_nodes],
    [add_const], [process_concat], [replace_input_arg], [fix_transpose],
    [process_dropout] and [transform_gpt2].  [get_nodes_to_remove] is called
    by nothing in the module and is left out. *)

From Stdlib Require Import Ascii.
From stdpp Require Import prelude strings pretty sorting.


(** ** Outcomes *)

(** The Python exceptions the module can raise. *)
Inductive exn :=
  | AttributeError   (* attribute access on [None] *)
  | IndexError       (* [seq[i]] or [del seq[i]] out of range *)
  | AssertionError   (* a failed [assert] *)
  | TypeError        (* [None] used as an index or compared by [sort] *)
  | ValueError       (* numpy: size mismatch, array that is not a scalar *)
  | OverflowError    (* numpy: integer that does not fit in int64 *)
  | NameError.       (* a local variable read before assignment *)

(** What running a piece of the module gives: a value, an exception, the
    exhaustion of the fuel that bounds the one unbounded [while] loop, or a
    computation outside the model (a non-integer constant used as a
    dimension). *)
Inductive res (A : Type) :=
  | Ok (a : A)
  | Raise (e : exn)
  | OutOfFuel
  | Unmodelled.
Arguments Ok {A} a.
Arguments Raise {A} e.
Arguments OutOfFuel {A}.
Arguments Unmodelled {A}.

#[global] Instance res_ret : MRet res := λ A a, Ok a.
#[global] Instance res_bind : MBind res := λ A B f r,
  match r with
  | Ok a => f a
  | Raise e => Raise e
  | OutOfFuel => OutOfFuel
  | Unmodelled => Unmodelled
  end.

(** [seq[i]]-style access: an absent element raises. *)
Definition or_raise {A} (e : exn) (o : option A) : res A :=
  match o with Some a => Ok a | None => Raise e end.

(** [assert b] *)
Definition assert (b : bool) : res unit :=
  if b then Ok () else Raise AssertionError.

(** ** Data model (the fields of the ONNX messages the module touches) *)

(** IEEE-754 binary32 values are carried as their bit pattern; the module
    only moves them around. *)
Definition float32 := Z.

(** A tensor: for the integer element types [t_data] holds the values, for
    FLOAT (code 1) the bit patterns, in row-major order. *)
Record TensorProto := mkTensor {
  t_name : string;
  t_data_type : Z;
  t_dims : list nat;
  t_data : list Z
}.

Record AttributeProto := mkAttr {
  a_name : string;
  a_type : Z;
  a_f : float32;
  a_t : TensorProto;
  a_ints : list Z
}.

Record NodeProto := mkNode {
  op_type : string;
  n_name : string;
  n_input : list string;
  n_output : list string;
  n_attribute : list AttributeProto
}.

Record ValueInfoProto := mkValueInfo {
  vi_name : string;
  vi_elem_type : Z
}.

Record GraphProto := mkGraph {
  g_node : list NodeProto;
  g_initializer : list TensorProto;
  g_input : list ValueInfoProto
}.

Record OperatorSetIdProto := mkOpset {
  os_domain : string;
  os_version : Z
}.

Record ModelProto := mkModel {
  graph : GraphProto;
  opset_import : list OperatorSetIdProto
}.

(** Protobuf messages compare by value ([==]). *)
#[global] Instance TensorProto_eq_dec : EqDecision TensorProto.
Proof. solve_decision. Defined.
#[global] Instance AttributeProto_eq_dec : EqDecision AttributeProto.
Proof. solve_decision. Defined.
#[global] Instance NodeProto_eq_dec : EqDecision NodeProto.
Proof. solve_decision. Defined.

(** The default (empty) messages. *)
Definition empty_tensor : TensorProto := mkTensor "" 0 [] [].

(** Field updates. *)
Definition nodes (model : ModelProto) : list NodeProto := g_node (graph model).
Definition initializers (model : ModelProto) : list TensorProto :=
  g_initializer (graph model).
Definition inputs (model : ModelProto) : list ValueInfoProto :=
  g_input (graph model).

Definition set_nodes (model : ModelProto) (ns : list NodeProto) : ModelProto :=
  mkModel (mkGraph ns (initializers model) (inputs model)) (opset_import model).
Definition set_initializers (model : ModelProto) (ws : list TensorProto) : ModelProto :=
  mkModel (mkGraph (nodes model) ws (inputs model)) (opset_import model).
Definition set_inputs (model : ModelProto) (vs : list ValueInfoProto) : ModelProto :=
  mkModel (mkGraph (nodes model) (initializers model) vs) (opset_import model).

Definition set_name (node : NodeProto) (s : string) : NodeProto :=
  mkNode (op_type node) s (n_input node) (n_output node) (n_attribute node).
Definition set_input (node : NodeProto) (ins : list string) : NodeProto :=
  mkNode (op_type node) (n_name node) ins (n_output node) (n_attribute node).

(** ** [add_name] *)

(** [for node in model.graph.node: node.name = '%s_%d' % (node.op_type, i)] *)
Fixpoint add_name_loop (i : nat) (ns : list NodeProto) : list NodeProto :=
  match ns with
  | [] => []
  | node :: rest =>
      set_name node (op_type node +:+ "_" +:+ pretty i) :: add_name_loop (S i) rest
  end.

Definition add_name (model : ModelProto) : ModelProto :=
  set_nodes model (add_name_loop 0 (nodes model)).

(** ** Graph query helpers *)

(** The list [result] that [find_input_node] builds: one entry per node
    output equal to [arg]. *)
Definition producers (model : ModelProto) (arg : string) : list NodeProto :=
  flat_map (λ node,
    flat_map (λ output, if decide (output = arg) then [node] else [])
             (n_output node))
    (nodes model).

(** [return result[0] if len(result) == 1 else None] *)
Definition find_input_node (model : ModelProto) (arg : string) : option NodeProto :=
  match producers model arg with
  | [node] => Some node
  | _ => None
  end.

(** The same scan over the node inputs. *)
Definition consumers (model : ModelProto) (arg : string) : list NodeProto :=
  flat_map (λ node,
    flat_map (λ input, if decide (input = arg) then [node] else [])
             (n_input node))
    (nodes model).

Definition find_output_node (model : ModelProto) (arg : string) : option NodeProto :=
  match consumers model arg with
  | [node] => Some node
  | _ => None
  end.

Definition find_initializer (model : ModelProto) (arg : string) : option TensorProto :=
  snd <$> list_find (λ w, t_name w = arg) (initializers model).

Definition find_input (model : ModelProto) (arg : string) : option ValueInfoProto :=
  snd <$> list_find (λ v, vi_name v = arg) (inputs model).

(** [model.graph.node[i] == node] is equality of messages, so this is the
    position of the first node equal to [node]. *)
Definition get_node_index (model : ModelProto) (node : NodeProto) : option nat :=
  fst <$> list_find (λ n, n = node) (nodes model).

Definition find_weight_index (model : ModelProto) (name : string) : option nat :=
  fst <$> list_find (λ w, t_name w = name) (initializers model).

Definition find_input_index (model : ModelProto) (name : string) : option nat :=
  fst <$> list_find (λ v, vi_name v = name) (inputs model).

(** The [while len(candidate) > 0] loop of [find_all_fused_nodes]; it runs
    for ever on a cyclic graph, so it is bounded by [fuel]. *)
Fixpoint find_all_fused_nodes_loop (fuel : nat) (model : ModelProto)
    (candidate result : list NodeProto) : res (list NodeProto) :=
  match candidate with
  | [] => Ok result
  | node :: candidate =>
      match fuel with
      | O => OutOfFuel
      | S fuel =>
          let result := result ++ [node] in
          if decide (op_type node = "Shape")
          then find_all_fused_nodes_loop fuel model candidate result
          else find_all_fused_nodes_loop fuel model
                 (candidate ++ omap (find_input_node model) (n_input node))
                 result
      end
  end.

Definition find_all_fused_nodes (fuel : nat) (model : ModelProto)
    (concat_node : NodeProto) : res (list NodeProto) :=
  find_all_fused_nodes_loop fuel model [concat_node] [].

(** ** Graph mutation helpers *)

(** [model.graph.node.add()] followed by the field assignments of
    [add_const]; returns the model and the new node. *)
Definition add_const (model : ModelProto) (name output : string)
    (t_value : option TensorProto) (f_value : option float32)
    : res (ModelProto * NodeProto) :=
  attr ← match t_value, f_value with
         | Some t, _ => Ok (mkAttr "value" 4 0%Z t [])
         | None, Some f => Ok (mkAttr "value" 1 f empty_tensor [])
         | None, None => Raise TypeError
         end;
  let const_node := mkNode "Constant" name [] [output] [attr] in
  Ok (set_nodes model (nodes model ++ [const_node]), const_node).

(** [node.input[i] = new_arg] wherever [node.input[i] == arg], all nodes. *)
Definition replace_input_arg (model : ModelProto) (arg new_arg : string) : ModelProto :=
  set_nodes model
    ((λ node, set_input node
        ((λ i, if decide (i = arg) then new_arg else i) <$> n_input node))
     <$> nodes model).

(** [del seq[i]] for an index that is an integer. *)
Definition py_del {A} (i : nat) (l : list A) : res (list A) :=
  if decide (i < length l) then Ok (delete i l) else Raise IndexError.

(** [for i in idxs: del seq[i]] *)
Fixpoint py_del_all {A} (idxs : list nat) (l : list A) : res (list A) :=
  match idxs with
  | [] => Ok l
  | i :: idxs => l ← py_del i l; py_del_all idxs l
  end.

(** [list.sort(reverse=True)] on a key: the stable descending sort. *)
Fixpoint insert_desc {A} (key : A → nat) (x : A) (l : list A) : list A :=
  match l with
  | [] => [x]
  | y :: l' => if decide (key y ≤ key x) then x :: l else y :: insert_desc key x l'
  end.

Definition sort_desc {A} (key : A → nat) (l : list A) : list A :=
  foldr (insert_desc key) [] l.

(** [sort(reverse=True)] of a list of results of an index lookup: comparing
    [None] with anything raises [TypeError]; a list of at most one element
    is not compared at all. *)
Definition sort_desc_opt (l : list (option nat)) : res (list (option nat)) :=
  if decide (length l ≤ 1) then Ok l
  else match mapM id l with
       | Some idxs => Ok (Some <$> sort_desc id idxs)
       | None => Raise TypeError
       end.

(** [for i in idxs: del seq[i]] where an index may be [None]. *)
Fixpoint py_del_all_opt {A} (idxs : list (option nat)) (l : list A) : res (list A) :=
  match idxs with
  | [] => Ok l
  | None :: _ => Raise TypeError
  | Some i :: idxs => l ← py_del i l; py_del_all_opt idxs l
  end.

(** A [for] loop over a list that the body does not resize. *)
Fixpoint for_each {A S} (body : S → A → res S) (l : list A) (s : S) : res S :=
  match l with
  | [] => Ok s
  | x :: l => s ← body s x; for_each body l s
  end.

(** ** The part of numpy and [onnx.numpy_helper] the module uses *)

Record ndarray := mkArray {
  nd_dtype : Z;
  nd_shape : list nat;
  nd_elems : list Z
}.

Definition FLOAT : Z := 1.
Definition INT64 : Z := 7.

(** UINT8, INT8, UINT16, INT16, INT32, INT64, UINT32, UINT64 *)
Definition is_integer_type (dt : Z) : bool :=
  bool_decide (dt ∈ [2; 3; 4; 5; 6; 7; 12; 13]%Z).

(** [numpy_helper.to_array]: the payload reshaped to [dims]. *)
Definition to_array (t : TensorProto) : res ndarray :=
  if decide (length (t_data t) = foldr Nat.mul 1 (t_dims t))
  then Ok (mkArray (t_data_type t) (t_dims t) (t_data t))
  else Raise ValueError.

(** [numpy_helper.from_array(arr, name)] *)
Definition from_array (arr : ndarray) (name : string) : TensorProto :=
  mkTensor name (nd_dtype arr) (nd_shape arr) (nd_elems arr).

(** [np.asscalar] (NumPy releases that still have it): the single element
    of an array of size one, as a Python number.  Only integer arrays are
    modelled; for the other element types the conversion of the number to
    int64 that follows is not. *)
Definition asscalar (arr : ndarray) : res Z :=
  match nd_elems arr with
  | [v] => if is_integer_type (nd_dtype arr) then Ok v else Unmodelled
  | _ => Raise ValueError
  end.

(** [np.asarray(shape, dtype=np.int64)] on a list of Python integers. *)
Definition np_asarray_int64 (shape : list Z) : res ndarray :=
  if bool_decide (Forall (λ v, -2^63 ≤ v < 2^63)%Z shape)
  then Ok (mkArray INT64 [length shape] shape)
  else Raise OverflowError.

(** [np.asarray([f], dtype=np.float32)] *)
Definition np_asarray_float32 (f : float32) : ndarray := mkArray FLOAT [1] [f].

(** Row-major data of the transpose of an [r]x[c] matrix. *)
Definition transpose2d (r c : nat) (elems : list Z) : list Z :=
  flat_map (λ j, (λ i, nth (i * c + j) elems 0%Z) <$> seq 0 r) (seq 0 c).

(** [arr.transpose(perm)] for a 2-dimensional array; an axis may be given
    from the end. *)
Definition np_transpose (perm : list Z) (arr : ndarray) : res ndarray :=
  match nd_shape arr with
  | [r; c] =>
      let norm := (λ p : Z, if decide (p < 0)%Z then (p + 2)%Z else p) <$> perm in
      if decide (norm = [1; 0]%Z)
      then Ok (mkArray (nd_dtype arr) [c; r] (transpose2d r c (nd_elems arr)))
      else if decide (norm = [0; 1]%Z) then Ok arr
      else Raise ValueError
  | _ => Raise ValueError
  end.

(** ** [process_concat] *)

(** The loop over [node.input] of a Concat: [(skip, input_nodes)]. *)
Fixpoint concat_inputs (model : ModelProto) (ins : list string)
    (skip : bool) (input_nodes : list NodeProto) : res (bool * list NodeProto) :=
  match ins with
  | [] => Ok (skip, input_nodes)
  | input :: ins =>
      concat_input_node ← or_raise AttributeError (find_input_node model input);
      concat_inputs model ins
        (if decide (op_type concat_input_node ≠ "Unsqueeze") then true else skip)
        (input_nodes ++ [concat_input_node])
  end.

(** One round of the "figure out target shape" loop. *)
Definition resolve_dim (model : ModelProto) (input_node : NodeProto) : res Z :=
  input0 ← or_raise IndexError (head (n_input input_node));
  const_input ← or_raise AttributeError (find_input_node model input0);
  if decide (op_type const_input ≠ "Constant") then Ok 0%Z
  else
    let attr := n_attribute const_input in
    _ ← assert (bool_decide (length attr = 1));
    attr0 ← or_raise IndexError (head attr);
    _ ← assert (bool_decide (a_name attr0 = "value"));
    _ ← assert (bool_decide (a_type attr0 = 4%Z));
    data ← to_array (a_t attr0);
    asscalar data.

Fixpoint resolve_shape (model : ModelProto) (input_nodes : list NodeProto)
    (shape : list Z) : res (list Z) :=
  match input_nodes with
  | [] => Ok shape
  | input_node :: rest =>
      d ← resolve_dim model input_node;
      resolve_shape model rest (shape ++ [d])
  end.

(** [d[k] = v] on a dict, which keeps the keys in insertion order. *)
Fixpoint dict_set {V} (k : nat) (v : V) (d : list (nat * V)) : list (nat * V) :=
  match d with
  | [] => [(k, v)]
  | (k', v') :: d' =>
      if decide (k' = k) then (k, v) :: d' else (k', v') :: dict_set k v d'
  end.

(** The node indices of [fuse_nodes]. *)
Fixpoint node_indices (model : ModelProto) (ns : list NodeProto) : res (list nat) :=
  match ns with
  | [] => Ok []
  | n :: ns =>
      i ← or_raise TypeError (get_node_index model n);
      rest ← node_indices model ns;
      Ok (i :: rest)
  end.

(** The state of the scan: the dict [new_nodes] and the list [delete_nodes]. *)
Definition concat_state : Type := list (nat * list Z) * list nat.

(** The body of [for node in model.graph.node] in [process_concat]. *)
Definition concat_step (fuel : nat) (model : ModelProto)
    (st : concat_state) (node : NodeProto) : res concat_state :=
  if decide (op_type node ≠ "Concat") then Ok st
  else
    '(skip, input_nodes) ← concat_inputs model (n_input node) false [];
    if (skip : bool) then Ok st
    else
      shape ← resolve_shape model input_nodes [];
      output0 ← or_raise IndexError (head (n_output node));
      match find_output_node model output0 with
      | Some reshape_node =>
          _ ← assert (bool_decide (op_type reshape_node = "Reshape"));
          reshape_index ← or_raise TypeError (get_node_index model reshape_node);
          fuse_nodes ← find_all_fused_nodes fuel model node;
          idxs ← node_indices model fuse_nodes;
          Ok (dict_set reshape_index shape (fst st), snd st ++ idxs)
      | None => Ok st
      end.

(** "insert new shape to reshape" *)
Fixpoint insert_shapes (model : ModelProto) (new_nodes : list (nat * list Z))
    (index : nat) : res ModelProto :=
  match new_nodes with
  | [] => Ok model
  | (reshape_node_index, shape) :: rest =>
      arr ← np_asarray_int64 shape;
      let shape_tensor := from_array arr "" in
      '(model, const_node) ← add_const model
          ("concat_shape_node_" +:+ pretty index)
          ("concat_shape_" +:+ pretty index) (Some shape_tensor) None;
      reshape_node ← or_raise IndexError (nodes model !! reshape_node_index);
      output0 ← or_raise IndexError (head (n_output const_node));
      if decide (1 < length (n_input reshape_node)) then
        insert_shapes
          (set_nodes model
             (<[reshape_node_index :=
                  set_input reshape_node (<[1 := output0]> (n_input reshape_node))]>
                (nodes model)))
          rest (S index)
      else Raise IndexError
  end.

Definition process_concat (fuel : nat) (model : ModelProto) : res ModelProto :=
  '(new_nodes, delete_nodes) ← for_each (concat_step fuel model) (nodes model) ([], []);
  model ← insert_shapes model new_nodes 0;
  ns ← py_del_all (sort_desc id delete_nodes) (nodes model);
  Ok (set_nodes model ns).

(** ** [fix_transpose] *)

(** The state of the first scan: the list [transpose] of (node index,
    weight) pairs and the local variable [perm], unbound at first. *)
Definition transpose_state : Type := list (nat * TensorProto) * option (list Z).

(** [len(perm) == 2 and perm[0] == 1 and perm[1] == 0] *)
Definition is_perm_1_0 (perm : list Z) : bool :=
  match perm with
  | [p0; p1] => bool_decide (p0 = 1%Z) && bool_decide (p1 = 0%Z)
  | _ => false
  end.

(** The body of the first [for node in model.graph.node]. *)
Definition transpose_step (model : ModelProto)
    (st : transpose_state) (node : NodeProto) : res transpose_state :=
  if decide (op_type node = "Transpose") then
    input0 ← or_raise IndexError (head (n_input node));
    match find_initializer model input0 with
    | Some weight =>
        let result := consumers model (t_name weight) in
        if decide (1 < length result) then Ok st
        else
          perm ← or_raise IndexError (head (n_attribute node));
          _ ← assert (bool_decide (a_name perm = "perm"));
          let perm := a_ints perm in
          _ ← assert (is_perm_1_0 perm);
          i ← or_raise TypeError (get_node_index model node);
          Ok (fst st ++ [(i, weight)], Some perm)
    | None => Ok st
    end
  else Ok st.

(** The body of the first [for t in transpose]: fold one weight. *)
Definition fold_transpose (perm : option (list Z)) (model : ModelProto)
    (t : nat * TensorProto) : res ModelProto :=
  node ← or_raise IndexError (nodes model !! t.1);
  weight ← to_array t.2;
  _ ← assert (bool_decide (length (nd_shape weight) = 2));
  perm ← or_raise NameError perm;
  weight ← np_transpose perm weight;
  let new_weight := from_array weight (t_name t.2 +:+ "_transposed") in
  let model := set_initializers model (initializers model ++ [new_weight]) in
  output0 ← or_raise IndexError (head (n_output node));
  Ok (replace_input_arg model output0 (t_name new_weight)).

(** The loop that fills [old_ws] and [old_graph_inputs]. *)
Fixpoint dead_weights (model : ModelProto) (transpose : list (nat * TensorProto))
    (old_ws old_graph_inputs : list (option nat))
    : list (option nat) * list (option nat) :=
  match transpose with
  | [] => (old_ws, old_graph_inputs)
  | t :: rest =>
      match find_output_node model (t_name t.2) with
      | None =>
          dead_weights model rest
            (old_ws ++ [find_weight_index model (t_name t.2)])
            (old_graph_inputs ++ [find_input_index model (t_name t.2)])
      | Some _ => dead_weights model rest old_ws old_graph_inputs
      end
  end.

(** [transpose.sort(reverse=True)] orders the pairs by node index: pairs
    with the same index hold the same weight
    ([transpose_scan_weight_of_index] below), so the weights themselves are
    never ordered. *)
Definition fix_transpose (model : ModelProto) : res ModelProto :=
  '(transpose, perm) ← for_each (transpose_step model) (nodes model) ([], None);
  model ← for_each (fold_transpose perm) transpose model;
  let transpose := sort_desc fst transpose in
  ns ← py_del_all (fst <$> transpose) (nodes model);
  let model := set_nodes model ns in
  let '(old_ws, old_graph_inputs) := dead_weights model transpose [] [] in
  old_ws ← sort_desc_opt old_ws;
  old_graph_inputs ← sort_desc_opt old_graph_inputs;
  gis ← py_del_all_opt old_graph_inputs (inputs model);
  let model := set_inputs model gis in
  ws ← py_del_all_opt old_ws (initializers model);
  Ok (set_initializers model ws).

(** ** [process_dropout] *)

(** [for node in model.graph.node] where the body appends to
    [model.graph.node]: the iteration is by position over the list as it is
    at each round, so it also visits the nodes the body has added.  [i] is
    the position, [index] the counter of the Dropout nodes met so far. *)
Fixpoint process_dropout_loop (fuel : nat) (i : nat) (model : ModelProto)
    (dropouts : list nat) (index : nat) : res (ModelProto * list nat) :=
  match fuel with
  | O => OutOfFuel
  | S fuel =>
      match nodes model !! i with
      | None => Ok (model, dropouts)
      | Some node =>
          if decide (op_type node = "Dropout") then
            let new_pos := length (nodes model) in
            let new_dropout :=
              mkNode "TrainableDropout" ("TrainableDropout_" +:+ pretty index) [] [] [] in
            let model := set_nodes model (nodes model ++ [new_dropout]) in
            attr0 ← or_raise IndexError (head (n_attribute node));
            let ratio := np_asarray_float32 (a_f attr0) in
            let ratio_value := from_array ratio "" in
            '(model, ratio_node) ← add_const model
                ("dropout_node_ratio_" +:+ pretty index)
                ("dropout_node_ratio_" +:+ pretty index) (Some ratio_value) None;
            input0 ← or_raise IndexError (head (n_input node));
            ratio_out ← or_raise IndexError (head (n_output ratio_node));
            let new_dropout :=
              mkNode (op_type new_dropout) (n_name new_dropout)
                     [input0; ratio_out] (n_output node) [] in
            let model := set_nodes model (<[new_pos := new_dropout]> (nodes model)) in
            d ← or_raise TypeError (get_node_index model node);
            process_dropout_loop fuel (S i) model (dropouts ++ [d]) (S index)
          else process_dropout_loop fuel (S i) model dropouts index
      end
  end.

(** Every Dropout met adds two nodes that are not Dropout nodes, so the
    loop ends after at most [3 * length (nodes model) + 1] rounds
    ([process_dropout_terminates] below). *)
Definition process_dropout (model : ModelProto) : res ModelProto :=
  '(model, dropouts) ←
     process_dropout_loop (3 * length (nodes model) + 1) 0 model [] 0;
  ns ← py_del_all (sort_desc id dropouts) (nodes model);
  Ok (set_nodes model ns).

(** ** [transform_gpt2] *)

(** [model.opset_import[0].version = 11] *)
Definition set_opset_version (model : ModelProto) (v : Z) : res ModelProto :=
  match opset_import model with
  | [] => Raise IndexError
  | o :: os => Ok (mkModel (graph model) (mkOpset (os_domain o) v :: os))
  end.

Definition transform_gpt2 (fuel : nat) (model : ModelProto) : res ModelProto :=
  let model := add_name model in
  model ← process_concat fuel model;
  model ← fix_transpose model;
  model ← process_dropout model;
  set_opset_version model 11.


(** ** [get_nodes_to_remove] *)

(** The loop over [less_node.input]: the producer of the first input that
    has a unique producer which is a Constant, if there is one. *)
Fixpoint find_const_input (model : ModelProto) (ins : list string)
    : option NodeProto :=
  match ins with
  | [] => None
  | less_input :: ins =>
      match find_input_node model less_input with
      | Some less_input_node =>
          if decide (op_type less_input_node = "Constant")
          then Some less_input_node
          else find_const_input model ins
      | None => find_const_input model ins
      end
  end.

(** The function reads the global name [model], which the module never
    binds: [global_model] is what that name is bound to when the function is
    called, if anything.  Reading the local [const_node] when the loop has
    not assigned it raises [UnboundLocalError], a [NameError]. *)
Definition get_nodes_to_remove (global_model : option ModelProto)
    (input_id : string) : res (list NodeProto) :=
  model ← or_raise NameError global_model;
  cast_node3 ← or_raise AttributeError (find_input_node model input_id);
  cast_input0 ← or_raise IndexError (head (n_input cast_node3));
  not_node3 ← or_raise AttributeError (find_input_node model cast_input0);
  less_node ←
    (if decide (op_type not_node3 = "Not") then
       not_input0 ← or_raise IndexError (head (n_input not_node3));
       Ok (find_input_node model not_input0)
     else
       _ ← assert (bool_decide (op_type not_node3 = "Less"));
       Ok (Some not_node3));
  less_node ← or_raise AttributeError less_node;
  const_node ← or_raise NameError (find_const_input model (n_input less_node));
  Ok [cast_node3; not_node3; less_node; const_node].

(** ** Vocabulary of the statements *)

(** The part of a string after its last underscore, if it has one. *)
Fixpoint suffix_after_us (s : string) : option string :=
  match s with
  | EmptyString => None
  | String c s' =>
      match suffix_after_us s' with
      | Some r => Some r
      | None => if decide (c = "_"%char) then Some s' else None
      end
  end.


(** [p] carries, as its only attribute, a "value" tensor that is an integer
    scalar [v]. *)
Definition scalar_constant (p : NodeProto) (v : Z) : Prop :=
  ∃ a, n_attribute p = [a] ∧ a_name a = "value" ∧ a_type a = 4%Z
       ∧ t_data (a_t a) = [v]
       ∧ foldr Nat.mul 1 (t_dims (a_t a)) = 1
       ∧ is_integer_type (t_data_type (a_t a)) = true.

(** The first input of [u] has a unique producer, which is either not a
    Constant or a Constant holding an integer scalar. *)
Definition dim_resolvable (model : ModelProto) (u : NodeProto) : Prop :=
  ∃ input0 p, head (n_input u) = Some input0
              ∧ find_input_node model input0 = Some p
              ∧ (op_type p ≠ "Constant" ∨ ∃ v, scalar_constant p v).

(** The elements of [l] whose position, counted from [k], is not in
    [idxs]. *)
Fixpoint remove_at_from {A} (k : nat) (idxs : list nat) (l : list A) : list A :=
  match l with
  | [] => []
  | x :: l' =>
      if decide (k ∈ idxs) then remove_at_from (S k) idxs l'
      else x :: remove_at_from (S k) idxs l'
  end.

(** The TrainableDropout node and the ratio Constant that replace the
    [k]-th Dropout node [d]. *)
Definition trainable_dropout (k : nat) (d : NodeProto) : NodeProto :=
  mkNode "TrainableDropout" ("TrainableDropout_" +:+ pretty k)
         [default "" (head (n_input d)); "dropout_node_ratio_" +:+ pretty k]
         (n_output d) [].

Definition ratio_constant (k : nat) (d : NodeProto) : NodeProto :=
  mkNode "Constant" ("dropout_node_ratio_" +:+ pretty k) []
         ["dropout_node_ratio_" +:+ pretty k]
         [mkAttr "value" 4 0%Z
            (mkTensor "" FLOAT [1]
               [default 0%Z (a_f <$> head (n_attribute d))]) []].

(** The nodes appended for the Dropout nodes of [ns], numbered from
    [index]. *)
Fixpoint upgraded (index : nat) (ns : list NodeProto) : list NodeProto :=
  match ns with
  | [] => []
  | n :: ns =>
      if decide (op_type n = "Dropout")
      then trainable_dropout index n :: ratio_constant index n
             :: upgraded (S index) ns
      else upgraded index ns
  end.

(** The positions of the Dropout nodes of [ns], counted from [k]. *)
Fixpoint dropout_positions (k : nat) (ns : list NodeProto) : list nat :=
  match ns with
  | [] => []
  | n :: ns =>
      if decide (op_type n = "Dropout")
      then k :: dropout_positions (S k) ns
      else dropout_positions (S k) ns
  end.

(** [n] is at position [p] of [l] and nowhere else. *)
Definition unique_at {A} (l : list A) (p : nat) (n : A) : Prop :=
  l !! p = Some n ∧ ∀ j, l !! j = Some n → j = p.


(** The [k]-th Constant that [process_concat] adds, holding [shape] as a
    vector of 64-bit integers. *)
Definition shape_constant (k : nat) (shape : list Z) : NodeProto :=
  mkNode "Constant" ("concat_shape_node_" +:+ pretty k) []
         ["concat_shape_" +:+ pretty k]
         [mkAttr "value" 4 0%Z (mkTensor "" INT64 [length shape] shape) []].

(** The effect of [replace_input_arg] on one node. *)
Definition rename_input (arg new_arg : string) (node : NodeProto) : NodeProto :=
  set_input node ((λ i, if decide (i = arg) then new_arg else i) <$> n_input node).



(** The indices that [process_dropout] records for the Dropout nodes of
    [rest], which follow the nodes [pre]: for each one the position of the
    first node equal to it. *)
Fixpoint dropout_first_positions (pre rest : list NodeProto) : list nat :=
  match rest with
  | [] => []
  | n :: rest =>
      if decide (op_type n = "Dropout")
      then from_option fst 0 (list_find (λ m, m = n) (pre ++ [n]))
             :: dropout_first_positions (pre ++ [n]) rest
      else dropout_first_positions (pre ++ [n]) rest
  end.

(** The names of the Dropout nodes of [ns], in their order. *)
Definition dropout_names (ns : list NodeProto) : list string :=
  n_name <$> filter (λ n, op_type n = "Dropout") ns.

(** ** Example models *)

Definition int64_scalar (v : Z) : AttributeProto :=
  mkAttr "value" 4 0%Z (mkTensor "" INT64 [] [v]) [].

(** Three Constant -> Unsqueeze chains into a Concat that feeds a Reshape,
    followed by a Relu. *)
Definition shape_chain_model : ModelProto :=
  mkModel (mkGraph
    [ mkNode "Constant" "" [] ["k1"] [int64_scalar 2];
      mkNode "Constant" "" [] ["k2"] [int64_scalar 0];
      mkNode "Constant" "" [] ["k3"] [int64_scalar 768];
      mkNode "Unsqueeze" "" ["k1"] ["a1"] [];
      mkNode "Unsqueeze" "" ["k2"] ["a2"] [];
      mkNode "Unsqueeze" "" ["k3"] ["a3"] [];
      mkNode "Concat" "" ["a1"; "a2"; "a3"] ["co"] [];
      mkNode "Reshape" "" ["x"; "co"] ["y"] [];
      mkNode "Relu" "" ["y"] ["z"] [] ]
    [] [mkValueInfo "x" 1]) [mkOpset "" 9].

(** A Concat whose input is a graph input: no node produces it. *)
Definition concat_of_graph_input : ModelProto :=
  mkModel (mkGraph [mkNode "Concat" "" ["x"] ["y"] []] [] [mkValueInfo "x" 7])
          [mkOpset "" 9].

(** A foldable chain whose Concat output is consumed by an Add, not by a
    Reshape. *)
Definition concat_into_add : ModelProto :=
  mkModel (mkGraph
    [ mkNode "Constant" "" [] ["k"] [int64_scalar 2];
      mkNode "Unsqueeze" "" ["k"] ["a"] [];
      mkNode "Concat" "" ["a"] ["co"] [];
      mkNode "Add" "" ["co"; "x"] ["y"] [] ]
    [] [mkValueInfo "x" 7]) [mkOpset "" 9].

(** A Concat fed by an Unsqueeze of a graph input; nothing consumes the
    Concat. *)
Definition unsqueeze_of_graph_input : ModelProto :=
  mkModel (mkGraph
    [ mkNode "Unsqueeze" "" ["x"] ["a"] [];
      mkNode "Concat" "" ["a"] ["co"] [] ]
    [] [mkValueInfo "x" 7]) [mkOpset "" 9].

(** A foldable chain whose Concat output nobody consumes. *)
Definition concat_unconsumed : ModelProto :=
  mkModel (mkGraph
    [ mkNode "Constant" "" [] ["k"] [int64_scalar 2];
      mkNode "Unsqueeze" "" ["k"] ["a"] [];
      mkNode "Concat" "" ["a"] ["co"] [];
      mkNode "Relu" "" ["x"] ["y"] [] ]
    [] [mkValueInfo "x" 7]) [mkOpset "" 9].

Definition perm_attr (perm : list Z) : AttributeProto :=
  mkAttr "perm" 7 0%Z empty_tensor perm.

(** A 2x3 weight. *)
Definition weight_W : TensorProto := mkTensor "W" FLOAT [2; 3] [1; 2; 3; 4; 5; 6]%Z.

(** A Transpose of the weight [W] with the identity permutation; [W] has no
    other consumer. *)
Definition transpose_identity_perm : ModelProto :=
  mkModel (mkGraph
    [ mkNode "Transpose" "" ["W"] ["wt"] [perm_attr [0; 1]%Z];
      mkNode "MatMul" "" ["x"; "wt"] ["y"] [] ]
    [weight_W] [mkValueInfo "x" 1; mkValueInfo "W" 1]) [mkOpset "" 9].

(** The same, with [W] also consumed directly by a second node. *)
Definition transpose_identity_perm_shared : ModelProto :=
  mkModel (mkGraph
    [ mkNode "Transpose" "" ["W"] ["wt"] [perm_attr [0; 1]%Z];
      mkNode "MatMul" "" ["x"; "wt"] ["y"] [];
      mkNode "MatMul" "" ["y"; "W"] ["z"] [] ]
    [weight_W] [mkValueInfo "x" 1; mkValueInfo "W" 1]) [mkOpset "" 9].

(** The float 0.1 as a binary32 bit pattern. *)
Definition ratio_0_1 : float32 := 1036831949%Z.

Definition ratio_attr (r : float32) : AttributeProto :=
  mkAttr "ratio" 1 r empty_tensor [].

(** Two Dropout nodes around a MatMul. *)
Definition two_dropouts : ModelProto :=
  mkModel (mkGraph
    [ mkNode "Dropout" "" ["x"] ["d0"] [ratio_attr ratio_0_1];
      mkNode "MatMul" "" ["d0"; "w"] ["h"] [];
      mkNode "Dropout" "" ["h"] ["Y"] [ratio_attr ratio_0_1] ]
    [] [mkValueInfo "x" 1; mkValueInfo "w" 1]) [mkOpset "" 9].

(** Two Dropout nodes that are equal as messages (same input, no output,
    no name), with a Relu between them. *)
Definition equal_dropouts : ModelProto :=
  mkModel (mkGraph
    [ mkNode "Dropout" "" ["x"] [] [ratio_attr ratio_0_1];
      mkNode "Relu" "" ["x"] ["y"] [];
      mkNode "Dropout" "" ["x"] [] [ratio_attr ratio_0_1] ]
    [] [mkValueInfo "x" 1]) [mkOpset "" 9].

(** A 4x3 weight. *)
Definition weight_4x3 : TensorProto :=
  mkTensor "W" FLOAT [4; 3]
    [11; 12; 13; 21; 22; 23; 31; 32; 33; 41; 42; 43]%Z.

(** [W] feeds a Transpose with permutation [1, 0] and nothing else; [W] is
    declared among the graph inputs. *)
Definition transpose_weight_declared : ModelProto :=
  mkModel (mkGraph
    [ mkNode "Transpose" "" ["W"] ["wt"] [perm_attr [1; 0]%Z];
      mkNode "MatMul" "" ["x"; "wt"] ["y"] [] ]
    [weight_4x3] [mkValueInfo "x" 1; mkValueInfo "W" 1]) [mkOpset "" 9].

(** The same graph with [W] stored as an initializer only, as in models
    that do not list their initializers among the graph inputs. *)
Definition transpose_weight_undeclared : ModelProto :=
  mkModel (mkGraph
    [ mkNode "Transpose" "" ["W"] ["wt"] [perm_attr [1; 0]%Z];
      mkNode "MatMul" "" ["x"; "wt"] ["y"] [] ]
    [weight_4x3] [mkValueInfo "x" 1]) [mkOpset "" 9].

(** A Transpose of the 2x3 weight [W] with permutation [1, 0]; [W] is an
    initializer only. *)
Definition transpose_W_undeclared : ModelProto :=
  mkModel (mkGraph
    [ mkNode "Transpose" "" ["W"] ["wt"] [perm_attr [1; 0]%Z];
      mkNode "MatMul" "" ["x"; "wt"] ["y"] [] ]
    [weight_W] [mkValueInfo "x" 1]) [mkOpset "" 9].

(** Two folded weights, [W] declared as a graph input and [V] not. *)
Definition transpose_two_weights : ModelProto :=
  mkModel (mkGraph
    [ mkNode "Transpose" "" ["W"] ["wt"] [perm_attr [1; 0]%Z];
      mkNode "Transpose" "" ["V"] ["vt"] [perm_attr [1; 0]%Z];
      mkNode "MatMul" "" ["wt"; "vt"] ["y"] [] ]
    [weight_4x3; mkTensor "V" FLOAT [1; 2] [7; 8]%Z]
    [mkValueInfo "W" 1]) [mkOpset "" 9].

(** One Shape node read by two Gather nodes, whose indices are
    initializers. *)
Definition shared_shape_model : ModelProto :=
  mkModel (mkGraph
    [ mkNode "Shape" "" ["x"] ["s"] [];
      mkNode "Gather" "" ["s"; "i0"] ["g0"] [];
      mkNode "Gather" "" ["s"; "i1"] ["g1"] [];
      mkNode "Unsqueeze" "" ["g0"] ["a0"] [];
      mkNode "Unsqueeze" "" ["g1"] ["a1"] [];
      mkNode "Concat" "" ["a0"; "a1"] ["co"] [];
      mkNode "Reshape" "" ["x"; "co"] ["y"] [];
      mkNode "Relu" "" ["y"] ["z"] [] ]
    [mkTensor "i0" INT64 [] [0%Z]; mkTensor "i1" INT64 [] [1%Z]]
    [mkValueInfo "x" 1]) [mkOpset "" 9].

(** ** More example models *)

(** Two Relu nodes that are equal as messages. *)
Definition equal_relus : ModelProto :=
  mkModel (mkGraph
    [ mkNode "Relu" "" ["x"] ["y"] [];
      mkNode "Relu" "" ["x"] ["y"] [] ]
    [] [mkValueInfo "x" 1]) [mkOpset "" 9].

(** A Split that lists the same output twice, read by a Relu. *)
Definition repeated_output : ModelProto :=
  mkModel (mkGraph
    [ mkNode "Split" "" ["x"] ["s"; "s"] [];
      mkNode "Relu" "" ["s"] ["y"] [] ]
    [] [mkValueInfo "x" 1]) [mkOpset "" 9].

(** A node that reads its own output. *)
Definition self_feeding : ModelProto :=
  mkModel (mkGraph
    [ mkNode "Add" "" ["acc"; "x"] ["acc"] [] ]
    [] [mkValueInfo "x" 1]) [mkOpset "" 9].

(** A Concat of the outputs of a Cast and of an Unsqueeze. *)
Definition concat_of_cast : ModelProto :=
  mkModel (mkGraph
    [ mkNode "Cast" "" ["x"] ["c"] [];
      mkNode "Unsqueeze" "" ["x"] ["u"] [];
      mkNode "Concat" "" ["c"; "u"] ["co"] [];
      mkNode "Reshape" "" ["x"; "co"] ["y"] [] ]
    [] [mkValueInfo "x" 1]) [mkOpset "" 9].

(** A Transpose of a value computed at run time, and a Transpose of the
    weight [W], which a MatMul reads as well. *)
Definition transposes_left_alone : ModelProto :=
  mkModel (mkGraph
    [ mkNode "Transpose" "" ["x"] ["xt"] [perm_attr [1; 0]%Z];
      mkNode "Transpose" "" ["W"] ["wt"] [perm_attr [1; 0]%Z];
      mkNode "MatMul" "" ["xt"; "W"] ["y"] [] ]
    [weight_W] [mkValueInfo "x" 1; mkValueInfo "W" 1]) [mkOpset "" 9].


(** A Dropout node without attribute after a well-formed one. *)
Definition dropout_without_ratio : ModelProto :=
  mkModel (mkGraph
    [ mkNode "Dropout" "" ["x"] ["d0"] [ratio_attr ratio_0_1];
      mkNode "Dropout" "" ["d0"] ["y"] [] ]
    [] [mkValueInfo "x" 1]) [mkOpset "" 9].

(** A mask computed as Cast(Not(Less(x, k))) with a Constant [k]. *)
Definition mask_chain : ModelProto :=
  mkModel (mkGraph
    [ mkNode "Constant" "" [] ["k"] [];
      mkNode "Less" "" ["x"; "k"] ["lt"] [];
      mkNode "Not" "" ["lt"] ["nt"] [];
      mkNode "Cast" "" ["nt"] ["mask"] [] ]
    [] [mkValueInfo "x" 1]) [mkOpset "" 9].

(** A mask computed as Cast(Less(x, y)) from two graph inputs. *)
Definition mask_of_inputs : ModelProto :=
  mkModel (mkGraph
    [ mkNode "Less" "" ["x"; "y"] ["lt"] [];
      mkNode "Cast" "" ["lt"] ["mask"] [] ]
    [] [mkValueInfo "x" 1; mkValueInfo "y" 1]) [mkOpset "" 9].

(** * Properties *)

(** ** Generated names *)

Lemma pretty_N_char_not_us (x : N) : pretty_N_char x ≠ "_"%char.
Proof. unfold pretty_N_char. by repeat case_match. Qed.

Lemma pretty_N_go_no_us (x : N) (s : string) :
  suffix_after_us s = None → suffix_after_us (pretty_N_go x s) = None.
Proof.
  revert s. induction (N.lt_wf_0 x) as [x _ IH]; intros s Hs.
  destruct (decide (x = 0)%N) as [->|Hx].
  - by rewrite pretty_N_go_0.
  - rewrite pretty_N_go_step by lia.
    apply IH; [apply N.div_lt; lia|].
    simpl. rewrite Hs. destruct (decide _) as [Hc|]; [|done].
    by apply pretty_N_char_not_us in Hc.
Qed.

Lemma pretty_nat_no_us (i : nat) : suffix_after_us (pretty i) = None.
Proof.
  unfold pretty, pretty_nat, pretty, pretty_N.
  destruct (decide _); [done|]. by apply pretty_N_go_no_us.
Qed.

Lemma suffix_after_us_app (a d : string) :
  suffix_after_us d = None → suffix_after_us (a +:+ "_" +:+ d) = Some d.
Proof.
  intros Hd. induction a as [|c a IH].
  - change (suffix_after_us (String "_" d) = Some d). simpl. by rewrite Hd.
  - change (suffix_after_us (String c (a +:+ "_" +:+ d)) = Some d).
    simpl. by rewrite IH.
Qed.

(** Two names ["<a>_<i>"] and ["<b>_<j>"] are equal only if [i = j]. *)
Lemma indexed_name_inj (a b : string) (i j : nat) :
  a +:+ "_" +:+ pretty i = b +:+ "_" +:+ pretty j → i = j.
Proof.
  intros H. apply (f_equal suffix_after_us) in H.
  rewrite !suffix_after_us_app in H by apply pretty_nat_no_us.
  injection H as H. by apply (inj pretty).
Qed.

Lemma add_name_loop_lookup (k : nat) (ns : list NodeProto) (i : nat) :
  add_name_loop k ns !! i
  = (λ node, set_name node (op_type node +:+ "_" +:+ pretty (k + i))) <$> ns !! i.
Proof.
  revert k i. induction ns as [|n ns IH]; intros k [|i]; simpl; try done.
  - by rewrite Nat.add_0_r.
  - rewrite IH. by replace (S k + i) with (k + S i) by lia.
Qed.

Lemma add_name_loop_length (k : nat) (ns : list NodeProto) :
  length (add_name_loop k ns) = length ns.
Proof. revert k. induction ns as [|n ns IH]; intros k; simpl; by rewrite ?IH. Qed.

(** C5. After [add_name] the node at position [i] of the original node
    list is the same node renamed ["<op_type>_<i>"], where [i] counts all
    nodes whatever their kind, and the names of the nodes are pairwise
    distinct. *)
Theorem add_name_names (model : ModelProto) :
  (∀ i : nat,
     nodes (add_name model) !! i
     = (λ node, set_name node (op_type node +:+ "_" +:+ pretty i))
         <$> nodes model !! i)
  ∧ length (nodes (add_name model)) = length (nodes model)
  ∧ NoDup (n_name <$> nodes (add_name model)).
Proof.
  assert (Hl : ∀ i : nat,
     nodes (add_name model) !! i
     = (λ node, set_name node (op_type node +:+ "_" +:+ pretty i))
         <$> nodes model !! i).
  { intros i. unfold add_name, set_nodes, nodes at 1; simpl.
    by rewrite add_name_loop_lookup. }
  split; [done|]. split.
  - unfold add_name, set_nodes, nodes at 1; simpl. apply add_name_loop_length.
  - apply NoDup_alt. intros i j s Hi Hj.
    rewrite list_lookup_fmap, Hl in Hi. rewrite list_lookup_fmap, Hl in Hj.
    destruct (nodes model !! i) as [ni|]; [|done].
    destruct (nodes model !! j) as [nj|]; [|done].
    simpl in *. injection Hi as <-. injection Hj as Hj.
    by apply indexed_name_inj in Hj.
Qed.

(** ** The passes leave [opset_import] alone *)

Lemma for_each_Ok_inv {A S} (P : S → Prop) (body : S → A → res S) l s s' :
  (∀ s x s', P s → body s x = Ok s' → P s') →
  P s → for_each body l s = Ok s' → P s'.
Proof.
  intros Hbody. revert s. induction l as [|x l IH]; intros s Hs H; simpl in H.
  - by injection H as <-.
  - destruct (body s x) as [s1| | |] eqn:E; try done. simpl in H. eauto.
Qed.

Lemma insert_shapes_opset model new_nodes index model' :
  insert_shapes model new_nodes index = Ok model' →
  opset_import model' = opset_import model.
Proof.
  revert model index. induction new_nodes as [|[i shape] rest IH];
    intros model index H; simpl in H.
  - by injection H as <-.
  - destruct (np_asarray_int64 shape) as [arr| | |]; try done. simpl in H.
    destruct (_ !! i) as [r|]; try done. simpl in H.
    destruct (decide _); try done. by apply IH in H.
Qed.

Lemma process_concat_opset fuel model model' :
  process_concat fuel model = Ok model' →
  opset_import model' = opset_import model.
Proof.
  unfold process_concat. intros H.
  destruct (for_each _ _ _) as [[new_nodes delete_nodes]| | |]; try done.
  simpl in H. destruct (insert_shapes _ _ _) as [m1| | |] eqn:E1; try done.
  simpl in H. destruct (py_del_all _ _) as [ns| | |]; try done.
  injection H as <-. by apply insert_shapes_opset in E1.
Qed.

Lemma fold_transpose_opset perm model t model' :
  fold_transpose perm model t = Ok model' →
  opset_import model' = opset_import model.
Proof.
  unfold fold_transpose. intros H.
  destruct (_ !! _); try done. simpl in H.
  destruct (to_array _); try done. simpl in H.
  destruct (assert _); try done. simpl in H.
  destruct perm; try done. simpl in H.
  destruct (np_transpose _ _); try done. simpl in H.
  destruct (head _); try done. by injection H as <-.
Qed.

Lemma fix_transpose_opset model model' :
  fix_transpose model = Ok model' →
  opset_import model' = opset_import model.
Proof.
  unfold fix_transpose. intros H.
  destruct (for_each (transpose_step model) _ _) as [[transpose perm]| | |];
    try done.
  simpl in H.
  destruct (for_each (fold_transpose perm) _ _) as [m1| | |] eqn:E1; try done.
  simpl in H. destruct (py_del_all _ _) as [ns| | |]; try done. simpl in H.
  destruct (dead_weights _ _ _ _) as [old_ws old_graph_inputs].
  destruct (sort_desc_opt old_ws); try done. simpl in H.
  destruct (sort_desc_opt old_graph_inputs); try done. simpl in H.
  destruct (py_del_all_opt _ _); try done. simpl in H.
  destruct (py_del_all_opt _ _); try done. injection H as <-. simpl.
  revert E1. apply (for_each_Ok_inv (λ m, opset_import m = opset_import model));
    [|done].
  intros s x s' Hs Hx. apply fold_transpose_opset in Hx. congruence.
Qed.

Lemma process_dropout_loop_opset fuel i model dropouts index model' dropouts' :
  process_dropout_loop fuel i model dropouts index = Ok (model', dropouts') →
  opset_import model' = opset_import model.
Proof.
  revert i model dropouts index.
  induction fuel as [|fuel IH]; intros i model dropouts index H; simpl in H;
    [done|].
  destruct (nodes model !! i) as [node|]; [|by injection H as <- _].
  destruct (decide _); [|by apply IH in H].
  destruct (head (n_attribute node)); try done. simpl in H.
  destruct (head (n_input node)); try done. simpl in H.
  destruct (get_node_index _ _); try done. simpl in H. by apply IH in H.
Qed.

Lemma process_dropout_opset model model' :
  process_dropout model = Ok model' →
  opset_import model' = opset_import model.
Proof.
  unfold process_dropout. intros H.
  destruct (process_dropout_loop _ _ _ _ _) as [[m1 dropouts]| | |] eqn:E1;
    try done.
  simpl in H. destruct (py_del_all _ _); try done. injection H as <-.
  by apply process_dropout_loop_opset in E1.
Qed.



(** ** Loops *)

Lemma for_each_app {A S} (body : S → A → res S) (l1 l2 : list A) (s : S) :
  for_each body (l1 ++ l2) s = s1 ← for_each body l1 s; for_each body l2 s1.
Proof.
  revert s. induction l1 as [|x l1 IH]; intros s; simpl; [done|].
  destruct (body s x); simpl; auto.
Qed.

(** ** Node positions *)

Lemma get_node_index_Some model n i :
  get_node_index model n = Some i →
  nodes model !! i = Some n ∧ ∀ j m, nodes model !! j = Some m → j < i → m ≠ n.
Proof.
  unfold get_node_index. intros H.
  apply fmap_Some in H as ([i' n'] & Hf & ->).
  apply list_find_Some in Hf as (Hl & -> & Hbefore). simpl. eauto.
Qed.

Lemma get_node_index_elem model n :
  n ∈ nodes model → is_Some (get_node_index model n).
Proof.
  intros Hin. unfold get_node_index. apply fmap_is_Some.
  by apply (list_find_elem_of _ _ n).
Qed.

(** ** Producers and consumers *)

(** [find_input_node] and [find_output_node] run the same scan, over the
    outputs and over the inputs of the nodes. *)
Section occurrences.
Variable field : NodeProto → list string.
Variable arg : string.

Let occ (ns : list NodeProto) : list NodeProto :=
  flat_map (λ node,
    flat_map (λ v, if decide (v = arg) then [node] else []) (field node)) ns.

Lemma occurrences_nil_not_elem (x : NodeProto) (l : list string) :
  arg ∉ l →
  flat_map (λ v, if decide (v = arg) then [x] else []) l = [].
Proof.
  induction l as [|o l IH]; simpl; [done|]. intros Hn.
  apply not_elem_of_cons in Hn as [Hne Hn]. destruct (decide (o = arg)); [done|].
  simpl. auto.
Qed.

Lemma occurrences_elem (x : NodeProto) (l : list string) :
  arg ∈ l →
  ∃ rest, flat_map (λ v, if decide (v = arg) then [x] else []) l = x :: rest.
Proof.
  induction l as [|o l IH]; simpl; intros Hin.
  - by apply elem_of_nil in Hin.
  - destruct (decide (o = arg)); simpl; [eauto|].
    apply elem_of_cons in Hin as [->|Hin]; [done|]. auto.
Qed.

Lemma occurrences_nil_filter (ns : list NodeProto) :
  occ ns = [] → filter (λ n, arg ∈ field n) ns = [].
Proof.
  unfold occ. induction ns as [|x ns IH]; simpl; [done|]. intros H.
  apply app_eq_nil in H as [Hx Hns]. rewrite filter_cons.
  destruct (decide (arg ∈ field x)) as [Hin|]; [|by apply IH].
  destruct (occurrences_elem x _ Hin) as [rest Hr]. by rewrite Hr in Hx.
Qed.

(** A scan with a single hit: one node has [arg] in that field. *)
Lemma occurrences_singleton_filter (ns : list NodeProto) (n : NodeProto) :
  occ ns = [n] → filter (λ n, arg ∈ field n) ns = [n].
Proof.
  unfold occ. induction ns as [|x ns IH]; simpl; [done|]. intros E.
  rewrite filter_cons. destruct (decide (arg ∈ field x)) as [Hin|Hin].
  - destruct (occurrences_elem x _ Hin) as [rest Hr]. rewrite Hr in E.
    simpl in E. injection E as -> E. apply app_eq_nil in E as [_ E].
    by rewrite (occurrences_nil_filter _ E).
  - rewrite (occurrences_nil_not_elem x _ Hin) in E. simpl in E. auto.
Qed.
End occurrences.

Lemma find_input_node_filter (model : ModelProto) (arg : string) n :
  find_input_node model arg = Some n →
  filter (λ n, arg ∈ n_output n) (nodes model) = [n].
Proof.
  unfold find_input_node, producers. intros H.
  destruct (flat_map _ _) as [|y [|z l]] eqn:E; try done. injection H as <-.
  by apply (occurrences_singleton_filter n_output).
Qed.

Lemma find_output_node_filter (model : ModelProto) (arg : string) n :
  find_output_node model arg = Some n →
  filter (λ n, arg ∈ n_input n) (nodes model) = [n].
Proof.
  unfold find_output_node, consumers. intros H.
  destruct (flat_map _ _) as [|y [|z l]] eqn:E; try done. injection H as <-.
  by apply (occurrences_singleton_filter n_input).
Qed.

(** A value that is not an output of exactly one node has no producer for
    [find_input_node]. *)
Lemma find_input_node_not_unique (model : ModelProto) (arg : string) :
  length (filter (λ n, arg ∈ n_output n) (nodes model)) ≠ 1 →
  find_input_node model arg = None.
Proof.
  intros H. destruct (find_input_node model arg) as [n|] eqn:E; [|done].
  apply find_input_node_filter in E. by rewrite E in H.
Qed.

Lemma filter_singleton_unique_at {A} (P : A → Prop) `{Hdec : !∀ x, Decision (P x)}
    (l : list A) (n : A) :
  filter P l = [n] → P n ∧ ∃ p, unique_at l p n.
Proof.
  induction l as [|x l IH]; [done|]. rewrite filter_cons.
  destruct (decide (P x)) as [Hx|Hx].
  - intros [= -> Hnil]. split; [done|]. exists 0. split; [done|].
    intros [|j] Hj; [done|]. simpl in Hj.
    assert (n ∈ filter P l) as Hin
      by (apply list_elem_of_filter; split;
          [done|by apply list_elem_of_lookup_2 in Hj]).
    rewrite Hnil in Hin. by apply elem_of_nil in Hin.
  - intros H. destruct (IH H) as (Hn & p & Hp & Hu). split; [done|].
    exists (S p). split; [done|]. intros [|j] Hj; simpl in Hj.
    + by injection Hj as ->.
    + f_equal. auto.
Qed.

Lemma unique_at_get_node_index model p n :
  unique_at (nodes model) p n → get_node_index model n = Some p.
Proof.
  intros [Hp Hu]. destruct (get_node_index model n) as [i|] eqn:E.
  - apply get_node_index_Some in E as [Hi _]. f_equal. auto.
  - assert (is_Some (get_node_index model n)) as [? ?]; [|congruence].
    apply get_node_index_elem. by apply list_elem_of_lookup_2 in Hp.
Qed.

(** ** The input check of [process_concat] *)

Lemma concat_inputs_None model ins skip acc arg :
  arg ∈ ins → find_input_node model arg = None →
  concat_inputs model ins skip acc = Raise AttributeError.
Proof.
  revert skip acc. induction ins as [|a ins IH]; intros skip acc Hin Hnone.
  - by apply elem_of_nil in Hin.
  - simpl. destruct (find_input_node model a) as [n|] eqn:E; [|done]. simpl.
    apply elem_of_cons in Hin as [->|Hin]; [congruence|]. auto.
Qed.

Lemma concat_inputs_Ok model ins skip acc skip' acc' :
  concat_inputs model ins skip acc = Ok (skip', acc') →
  Forall (λ a, is_Some (find_input_node model a)) ins
  ∧ acc' = acc ++ omap (find_input_node model) ins
  ∧ (skip' = true ↔
       skip = true ∨
       Exists (λ a, ∃ n, find_input_node model a = Some n
                         ∧ op_type n ≠ "Unsqueeze") ins).
Proof.
  revert skip acc. induction ins as [|a ins IH]; intros skip acc H; simpl in H.
  - injection H as <- <-. rewrite app_nil_r. repeat split; auto.
    intros [?|Hex]; [done|]. by apply Exists_nil in Hex.
  - destruct (find_input_node model a) as [n|] eqn:E; [|done]. simpl in H.
    apply IH in H as (HF & -> & Hskip). split; [constructor; eauto|].
    split; [simpl; rewrite E; by rewrite <- app_assoc|].
    rewrite Hskip, Exists_cons. destruct (decide (op_type n ≠ "Unsqueeze")).
    + split; [|intros _; by left]. intros _. right. left. eauto.
    + split; [tauto|]. intros [?|[(n' & Hn' & ?)|?]]; [tauto| |tauto].
      rewrite E in Hn'. by injection Hn' as <-.
Qed.

Lemma concat_inputs_total model ins skip acc :
  Forall (λ a, is_Some (find_input_node model a)) ins →
  ∃ skip', concat_inputs model ins skip acc
           = Ok (skip', acc ++ omap (find_input_node model) ins).
Proof.
  revert skip acc. induction ins as [|a ins IH]; intros skip acc HF; simpl.
  - rewrite app_nil_r. eauto.
  - apply Forall_cons in HF as [[n Hn] HF]. rewrite Hn. simpl.
    destruct (IH (if decide (op_type n ≠ "Unsqueeze") then true else skip)
                 (acc ++ [n]) HF) as [skip' ->].
    rewrite <- app_assoc. eauto.
Qed.

(** C10. A Concat with an input that is not the output of exactly one node
    makes [process_concat] fail: the examination of that Concat raises
    [AttributeError] whatever the other inputs are, the pass raises it when
    the scan reaches that node, and in no case does the pass end normally.
    The input check skips a candidate only when every input has a unique
    producer and one of the producers is not an Unsqueeze. *)
Theorem process_concat_missing_producer
    (fuel : nat) (model : ModelProto) (pre post : list NodeProto)
    (node : NodeProto) (arg : string) :
  nodes model = pre ++ node :: post →
  op_type node = "Concat" →
  arg ∈ n_input node →
  length (filter (λ n, arg ∈ n_output n) (nodes model)) ≠ 1 →
  (∀ st, concat_step fuel model st node = Raise AttributeError)
  ∧ (∀ st, for_each (concat_step fuel model) pre ([], []) = Ok st →
           process_concat fuel model = Raise AttributeError)
  ∧ (∀ model', process_concat fuel model ≠ Ok model')
  ∧ (∀ ins input_nodes,
       concat_inputs model ins false [] = Ok (true, input_nodes) →
       Forall (λ a, is_Some (find_input_node model a)) ins
       ∧ Exists (λ a, ∃ n, find_input_node model a = Some n
                           ∧ op_type n ≠ "Unsqueeze") ins).
Proof.
  intros Hnodes Hop Hin Hcount.
  apply find_input_node_not_unique in Hcount.
  assert (Hstep : ∀ st, concat_step fuel model st node = Raise AttributeError).
  { intros st. unfold concat_step. destruct (decide _) as [Hne|_]; [done|].
    by rewrite (concat_inputs_None _ _ _ _ _ Hin Hcount). }
  split; [done|]. split; [|split].
  - intros st Hpre. unfold process_concat.
    rewrite Hnodes, for_each_app, Hpre. simpl. by rewrite Hstep.
  - intros model'. unfold process_concat. rewrite Hnodes, for_each_app.
    destruct (for_each _ pre _) as [st| | |]; simpl; try done.
    by rewrite Hstep.
  - intros ins input_nodes H. apply concat_inputs_Ok in H as (HF & _ & Hs).
    split; [done|]. destruct Hs as [Hs _]. destruct (Hs eq_refl); [done|done].
Qed.

Lemma process_concat_missing_producer_witness :
  process_concat 0 concat_of_graph_input = Raise AttributeError.
Proof.
  refine (proj1 (proj2 (process_concat_missing_producer 0 concat_of_graph_input
            [] [] (mkNode "Concat" "" ["x"] ["y"] []) "x" _ _ _ _)) ([], []) _).
  - reflexivity.
  - reflexivity.
  - apply list_elem_of_here.
  - vm_compute. lia.
  - reflexivity.
Defined.

(** ** Candidates that [process_concat] leaves alone *)

Lemma resolve_dim_scalar model u input0 p v :
  head (n_input u) = Some input0 →
  find_input_node model input0 = Some p →
  op_type p = "Constant" → scalar_constant p v →
  resolve_dim model u = Ok v.
Proof.
  intros Hh Hp Hop (a & Ha & Hn & Ht & Hd & Hdims & Hint).
  unfold resolve_dim. rewrite Hh. simpl. rewrite Hp. simpl.
  destruct (decide _) as [Hne|_]; [done|]. rewrite Ha. simpl.
  rewrite Hn, Ht. simpl. unfold to_array. rewrite Hd, Hdims. simpl.
  unfold asscalar. simpl. by rewrite Hint.
Qed.

Lemma resolve_dim_resolvable model u :
  dim_resolvable model u → ∃ d, resolve_dim model u = Ok d.
Proof.
  intros (input0 & p & Hh & Hp & Hcase).
  destruct (decide (op_type p = "Constant")) as [Hop|Hop].
  - destruct Hcase as [?|[v Hv]]; [done|]. exists v.
    by eapply resolve_dim_scalar.
  - exists 0%Z. unfold resolve_dim. rewrite Hh. simpl. rewrite Hp. simpl.
    by destruct (decide _).
Qed.

Lemma resolve_shape_resolvable model us shape :
  Forall (dim_resolvable model) us →
  ∃ shape', resolve_shape model us shape = Ok shape'.
Proof.
  revert shape. induction us as [|u us IH]; intros shape HF; simpl; [eauto|].
  apply Forall_cons in HF as [Hu HF].
  destruct (resolve_dim_resolvable _ _ Hu) as [d ->]. simpl. auto.
Qed.

Lemma for_each_skip {A S} (body : S → A → res S) (l : list A) (s : S) :
  (∀ x, x ∈ l → body s x = Ok s) → for_each body l s = Ok s.
Proof.
  induction l as [|x l IH]; intros H; simpl; [done|].
  rewrite H by apply list_elem_of_here. simpl. apply IH.
  intros y Hy. apply H. by apply list_elem_of_further.
Qed.

Lemma set_nodes_id model : set_nodes model (nodes model) = model.
Proof. by destruct model as [[? ? ?] ?]. Qed.

(** The inputs of [node] all come from Unsqueeze nodes whose dimension the
    pass can resolve. *)
Lemma concat_inputs_unsqueeze model ins :
  Forall (λ a, ∃ u, find_input_node model a = Some u
                    ∧ op_type u = "Unsqueeze" ∧ dim_resolvable model u) ins →
  concat_inputs model ins false []
  = Ok (false, omap (find_input_node model) ins)
  ∧ Forall (dim_resolvable model) (omap (find_input_node model) ins).
Proof.
  intros HF. split.
  - destruct (concat_inputs_total model ins false []) as [skip' H].
    { eapply Forall_impl; [done|]. intros a (u & -> & _). eauto. }
    rewrite H. f_equal. f_equal.
    apply concat_inputs_Ok in H as (_ & _ & Hs).
    destruct skip'; [|done]. destruct Hs as [Hs _].
    destruct (Hs eq_refl) as [?|Hex]; [done|].
    apply Exists_exists in Hex as (a & Ha & n & Hn & Hne).
    rewrite Forall_forall in HF. destruct (HF a Ha) as (u & Hu & Hop & _).
    congruence.
  - induction HF as [|a ins (u & Hu & _ & Hd) HF IH]; simpl; [done|].
    rewrite Hu. by constructor.
Qed.

(** C7 (amended). Take a Concat whose inputs all come from Unsqueeze nodes
    with a resolvable dimension.  If no node input, or more than one, refers
    to its first output, the examination of the Concat changes neither the
    recorded shapes nor the deletion list, and a graph with no other Concat
    comes out of the pass unchanged.  If exactly one node input refers to it
    and that node is not a Reshape, the examination raises
    [AssertionError]. *)
Theorem process_concat_no_consumer
    (fuel : nat) (model : ModelProto) (node : NodeProto) (output0 : string) :
  op_type node = "Concat" →
  Forall (λ a, ∃ u, find_input_node model a = Some u
                    ∧ op_type u = "Unsqueeze" ∧ dim_resolvable model u)
         (n_input node) →
  head (n_output node) = Some output0 →
  (find_output_node model output0 = None →
     (∀ st, concat_step fuel model st node = Ok st)
     ∧ ((∀ n, n ∈ nodes model → op_type n = "Concat" → n = node) →
        process_concat fuel model = Ok model))
  ∧ (∀ r, find_output_node model output0 = Some r →
          op_type r ≠ "Reshape" →
          ∀ st, concat_step fuel model st node = Raise AssertionError).
Proof.
  intros Hop Hins Hout.
  destruct (concat_inputs_unsqueeze _ _ Hins) as [Hci Hres].
  assert (Hpre : ∀ st, concat_step fuel model st node
    = (shape ← resolve_shape model
                 (omap (find_input_node model) (n_input node)) [];
       match find_output_node model output0 with
       | Some reshape_node =>
           _ ← assert (bool_decide (op_type reshape_node = "Reshape"));
           reshape_index ← or_raise TypeError (get_node_index model reshape_node);
           fuse_nodes ← find_all_fused_nodes fuel model node;
           idxs ← node_indices model fuse_nodes;
           Ok (dict_set reshape_index shape (fst st), snd st ++ idxs)
       | None => Ok st
       end)).
  { intros st. unfold concat_step. destruct (decide _) as [Hne|_]; [done|].
    rewrite Hci. simpl. destruct (resolve_shape _ _ _); simpl; try done.
    by rewrite Hout. }
  destruct (resolve_shape_resolvable model _ [] Hres) as [shape Hshape].
  split.
  - intros Hnone.
    assert (Hstep : ∀ st, concat_step fuel model st node = Ok st).
    { intros st. by rewrite Hpre, Hshape, Hnone. }
    split; [done|]. intros Honly. unfold process_concat.
    rewrite for_each_skip; simpl.
    + by rewrite set_nodes_id.
    + intros n Hn. destruct (decide (op_type n = "Concat")) as [Hc|Hc].
      * rewrite (Honly n Hn Hc). apply Hstep.
      * unfold concat_step. by destruct (decide _).
  - intros r Hr Hne st. rewrite Hpre, Hshape, Hr. simpl.
    by rewrite bool_decide_eq_false_2.
Qed.

Lemma process_concat_no_consumer_witness :
  process_concat 0 concat_unconsumed = Ok concat_unconsumed.
Proof.
  refine (proj2 (proj1 (process_concat_no_consumer 0 concat_unconsumed
            (mkNode "Concat" "" ["a"] ["co"] []) "co" _ _ _) _) _).
  - reflexivity.
  - repeat constructor.
    exists (mkNode "Unsqueeze" "" ["k"] ["a"] []). repeat split.
    exists "k", (mkNode "Constant" "" [] ["k"] [int64_scalar 2]).
    repeat split. right. exists 2%Z, (int64_scalar 2). by repeat split.
  - reflexivity.
  - reflexivity.
  - intros n Hn Hc. unfold concat_unconsumed, nodes in Hn. simpl in Hn.
    repeat (apply elem_of_cons in Hn as [->|Hn]; [done || discriminate Hc|]).
    by apply elem_of_nil in Hn.
Defined.

(** C7, as stated, fails: a unique consumer that is not a Reshape stops the
    pass with an assertion failure, and an Unsqueeze fed by a graph input
    stops it with [AttributeError]. *)
Lemma process_concat_no_reshape_consumer_fails :
  process_concat 10 concat_into_add = Raise AssertionError
  ∧ process_concat 10 unsqueeze_of_graph_input = Raise AttributeError.
Proof. split; vm_compute; reflexivity. Qed.

(** ** The permutation guard of [fix_transpose] *)

Lemma is_perm_1_0_spec perm : is_perm_1_0 perm = true ↔ perm = [1; 0]%Z.
Proof.
  unfold is_perm_1_0. destruct perm as [|p0 [|p1 [|p2 l]]]; try done.
  rewrite andb_true_iff, !bool_decide_eq_true. split.
  - by intros [-> ->].
  - by intros [= -> ->].
Qed.

(** A scan step on a Transpose with an input and an attribute either goes
    through or fails an assertion. *)
Lemma transpose_step_outcome model st n :
  n ∈ nodes model →
  (op_type n = "Transpose" → n_input n ≠ [] ∧ n_attribute n ≠ []) →
  (∃ st', transpose_step model st n = Ok st')
  ∨ transpose_step model st n = Raise AssertionError.
Proof.
  intros Hin Hwf. unfold transpose_step.
  destruct (decide _) as [Hop|]; [|eauto].
  destruct (Hwf Hop) as [Hi Ha].
  destruct (n_input n) as [|input0 ?]; [done|]. simpl.
  destruct (find_initializer _ _) as [weight|]; [|eauto].
  destruct (decide _); [eauto|].
  destruct (n_attribute n) as [|att ?]; [done|]. simpl.
  destruct (bool_decide (a_name att = "perm")); simpl; [|eauto].
  destruct (is_perm_1_0 _); simpl; [|eauto].
  destruct (get_node_index_elem _ _ Hin) as [i ->]. simpl. eauto.
Qed.

Lemma transpose_scan_outcome model ns st :
  Forall (λ n, n ∈ nodes model) ns →
  Forall (λ n, op_type n = "Transpose" → n_input n ≠ [] ∧ n_attribute n ≠ []) ns →
  (∃ st', for_each (transpose_step model) ns st = Ok st')
  ∨ for_each (transpose_step model) ns st = Raise AssertionError.
Proof.
  revert st. induction ns as [|n ns IH]; intros st Hin Hwf; simpl; [eauto|].
  apply Forall_cons in Hin as [Hn Hin]. apply Forall_cons in Hwf as [Hw Hwf].
  destruct (transpose_step_outcome model st n Hn Hw) as [[st' ->]| ->];
    simpl; auto.
Qed.

(** C9 (amended). A Transpose whose first input names an initializer and
    whose [perm] is not [[1, 0]] stops [fix_transpose] with an assertion
    failure when the Transpose is the only consumer of that initializer
    (the earlier Transposes being well formed).  When the initializer has
    more than one consumer the Transpose is skipped before its permutation
    is looked at. *)
Theorem fix_transpose_perm_guard
    (model : ModelProto) (pre post : list NodeProto) (node : NodeProto)
    (input0 : string) (weight : TensorProto) (att : AttributeProto) :
  nodes model = pre ++ node :: post →
  op_type node = "Transpose" →
  head (n_input node) = Some input0 →
  find_initializer model input0 = Some weight →
  head (n_attribute node) = Some att →
  ¬ (a_name att = "perm" ∧ a_ints att = [1; 0]%Z) →
  Forall (λ n, op_type n = "Transpose" → n_input n ≠ [] ∧ n_attribute n ≠ [])
         pre →
  (length (consumers model (t_name weight)) = 1 →
     fix_transpose model = Raise AssertionError)
  ∧ (1 < length (consumers model (t_name weight)) →
     ∀ st, transpose_step model st node = Ok st).
Proof.
  intros Hnodes Hop Hin Hw Hatt Hperm Hwf. split.
  - intros Hone.
    assert (Hstep : ∀ st, transpose_step model st node = Raise AssertionError).
    { intros st. unfold transpose_step. destruct (decide _); [|done].
      rewrite Hin. simpl. rewrite Hw. destruct (decide _); [lia|].
      rewrite Hatt. simpl.
      destruct (bool_decide (a_name att = "perm")) eqn:En; simpl; [|done].
      destruct (is_perm_1_0 (a_ints att)) eqn:Ep; simpl; [|done].
      apply bool_decide_eq_true in En. apply is_perm_1_0_spec in Ep. tauto. }
    unfold fix_transpose. rewrite Hnodes, for_each_app.
    destruct (transpose_scan_outcome model pre ([], None)) as [[st' ->]| ->];
      simpl; [| |by rewrite Hstep|done]; [|done].
    apply Forall_forall. intros n Hn. rewrite Hnodes. apply elem_of_app. auto.
  - intros Hmany st. unfold transpose_step. destruct (decide _); [|done].
    rewrite Hin. simpl. rewrite Hw. by destruct (decide _).
Qed.

Lemma fix_transpose_perm_guard_witness :
  fix_transpose transpose_identity_perm = Raise AssertionError.
Proof.
  refine (proj1 (fix_transpose_perm_guard transpose_identity_perm
            [] [mkNode "MatMul" "" ["x"; "wt"] ["y"] []]
            (mkNode "Transpose" "" ["W"] ["wt"] [perm_attr [0; 1]%Z])
            "W" weight_W (perm_attr [0; 1]%Z) _ _ _ _ _ _ _) _).
  - reflexivity.
  - reflexivity.
  - reflexivity.
  - reflexivity.
  - reflexivity.
  - intros [_ H]. discriminate H.
  - constructor.
  - reflexivity.
Defined.

(** C9, as stated, fails: with a second consumer of the weight the
    Transpose with the identity permutation is skipped and the pass returns
    the model as it was. *)
Lemma fix_transpose_shared_weight_skips_guard :
  fix_transpose transpose_identity_perm_shared = Ok transpose_identity_perm_shared.
Proof. vm_compute. reflexivity. Qed.

(** ** Sorting and batch deletion *)

Lemma insert_desc_Permutation {A} (key : A → nat) x l :
  insert_desc key x l ≡ₚ x :: l.
Proof.
  induction l as [|y l IH]; simpl; [done|].
  destruct (decide _); [done|]. rewrite IH. apply Permutation_swap.
Qed.

Lemma sort_desc_Permutation {A} (key : A → nat) l : sort_desc key l ≡ₚ l.
Proof.
  induction l as [|x l IH]; simpl; [done|].
  unfold sort_desc in *. simpl. by rewrite insert_desc_Permutation, IH.
Qed.

Lemma insert_desc_sorted {A} (key : A → nat) x l :
  StronglySorted (λ a b, key b ≤ key a) l →
  StronglySorted (λ a b, key b ≤ key a) (insert_desc key x l).
Proof.
  induction 1 as [|y l Hs IH Hy]; simpl.
  - repeat constructor.
  - destruct (decide _) as [Hle|Hgt].
    + constructor; [by constructor|]. constructor; [done|].
      eapply Forall_impl; [done|]. simpl. intros z Hz. lia.
    + constructor; [done|]. rewrite insert_desc_Permutation.
      constructor; [lia|done].
Qed.

Lemma sort_desc_sorted {A} (key : A → nat) l :
  StronglySorted (λ a b, key b ≤ key a) (sort_desc key l).
Proof.
  induction l as [|x l IH]; [constructor|]. by apply insert_desc_sorted.
Qed.

(** Sorting positions that are pairwise distinct gives a strictly
    descending list. *)
Lemma sort_desc_strict (l : list nat) :
  NoDup l → StronglySorted (λ a b, b < a) (sort_desc id l).
Proof.
  intros Hnd. rewrite <- (sort_desc_Permutation id l) in Hnd.
  pose proof (sort_desc_sorted id l) as Hs. simpl in Hs.
  induction Hs as [|y l' Hs IH Hy]; [constructor|].
  apply NoDup_cons in Hnd as [Hy' Hnd]. constructor; [auto|].
  rewrite Forall_forall in Hy |- *. intros z Hz.
  specialize (Hy z Hz). assert (z ≠ y) by (intros ->; done). lia.
Qed.

Lemma remove_at_from_ext {A} (k : nat) (idxs idxs' : list nat) (l : list A) :
  (∀ j, k ≤ j → j ∈ idxs ↔ j ∈ idxs') →
  remove_at_from k idxs l = remove_at_from k idxs' l.
Proof.
  revert k. induction l as [|x l IH]; intros k H; simpl; [done|].
  rewrite (IH (S k)) by (intros j Hj; apply H; lia).
  destruct (decide (k ∈ idxs)) as [Hi|Hi], (decide (k ∈ idxs')) as [Hi'|Hi'];
    try done; exfalso; apply (H k) in Hi || apply (H k) in Hi'; done || lia.
Qed.

Lemma remove_at_from_none {A} (k : nat) (idxs : list nat) (l : list A) :
  Forall (λ j, j < k) idxs → remove_at_from k idxs l = l.
Proof.
  revert k. induction l as [|x l IH]; intros k H; simpl; [done|].
  destruct (decide (k ∈ idxs)) as [Hi|Hi].
  - rewrite Forall_forall in H. specialize (H k Hi). lia.
  - rewrite IH; [done|]. eapply Forall_impl; [done|]. simpl. lia.
Qed.

Lemma remove_at_from_delete {A} (k i : nat) (idxs : list nat) (l : list A) :
  k ≤ i → Forall (λ j, j < i) idxs →
  remove_at_from k (i :: idxs) l = remove_at_from k idxs (delete (i - k) l).
Proof.
  revert k. induction l as [|x l IH]; intros k Hk Hlt; simpl; [done|].
  destruct (decide (k = i)) as [->|Hne].
  - rewrite Nat.sub_diag. simpl.
    destruct (decide _) as [_|Hn]; [|by apply not_elem_of_cons in Hn as [? _]].
    rewrite (remove_at_from_none i idxs l Hlt).
    apply remove_at_from_none. constructor; [lia|].
    eapply Forall_impl; [done|]. simpl. lia.
  - replace (i - k) with (S (i - S k)) by lia. simpl.
    rewrite (IH (S k)) by (done || lia).
    destruct (decide (k ∈ i :: idxs)) as [Hi|Hi], (decide (k ∈ idxs)) as [Hi'|Hi'];
      try done.
    + by apply elem_of_cons in Hi as [?|?].
    + exfalso. apply Hi. by apply list_elem_of_further.
Qed.

(** Deleting, one by one, positions given in strictly descending order
    removes exactly the elements at those positions. *)
Lemma py_del_all_descending {A} (idxs : list nat) (l : list A) :
  StronglySorted (λ a b, b < a) idxs →
  Forall (λ j, j < length l) idxs →
  py_del_all idxs l = Ok (remove_at_from 0 idxs l).
Proof.
  intros Hs. revert l. induction Hs as [|i idxs Hs IH Hi]; intros l Hlen; simpl.
  - by rewrite remove_at_from_none.
  - apply Forall_cons in Hlen as [Hil Hlen]. unfold py_del.
    destruct (decide _); [|done]. simpl.
    rewrite IH.
    + rewrite remove_at_from_delete by (done || lia). by rewrite Nat.sub_0_r.
    + rewrite length_delete by (by apply lookup_lt_is_Some).
      rewrite Forall_forall in Hi, Hlen |- *. intros j Hj.
      specialize (Hi j Hj). lia.
Qed.

Lemma py_del_all_sort_desc {A} (idxs : list nat) (l : list A) :
  NoDup idxs → Forall (λ j, j < length l) idxs →
  py_del_all (sort_desc id idxs) l = Ok (remove_at_from 0 idxs l).
Proof.
  intros Hnd Hlen. rewrite py_del_all_descending.
  - f_equal. apply remove_at_from_ext. intros j _.
    by rewrite (sort_desc_Permutation id idxs).
  - by apply sort_desc_strict.
  - by rewrite (sort_desc_Permutation id idxs).
Qed.

Lemma elem_of_remove_at_from {A} (k : nat) (idxs : list nat) (l : list A) x :
  x ∈ remove_at_from k idxs l ↔ ∃ j, l !! j = Some x ∧ k + j ∉ idxs.
Proof.
  revert k. induction l as [|y l IH]; intros k; simpl.
  - split; [by intros ?%elem_of_nil|]. by intros (j & ? & _).
  - destruct (decide (k ∈ idxs)) as [Hi|Hi].
    + rewrite IH. split.
      * intros (j & Hj & Hn). exists (S j). split; [done|].
        by replace (k + S j) with (S k + j) by lia.
      * intros ([|j] & Hj & Hn); simpl in Hj.
        -- by rewrite Nat.add_0_r in Hn.
        -- exists j. split; [done|]. by replace (S k + j) with (k + S j) by lia.
    + rewrite elem_of_cons, IH. split.
      * intros [->|(j & Hj & Hn)].
        -- exists 0. by rewrite Nat.add_0_r.
        -- exists (S j). split; [done|].
           by replace (k + S j) with (S k + j) by lia.
      * intros ([|j] & Hj & Hn); simpl in Hj.
        -- left. by injection Hj.
        -- right. exists j. split; [done|].
           by replace (S k + j) with (k + S j) by lia.
Qed.

(** ** [process_dropout] *)

Lemma nodes_set_nodes model ns : nodes (set_nodes model ns) = ns.
Proof. done. Qed.

Lemma set_nodes_set_nodes model ns ns' :
  set_nodes (set_nodes model ns) ns' = set_nodes model ns'.
Proof. done. Qed.

Lemma upgraded_not_dropout index ns :
  Forall (λ n, op_type n ≠ "Dropout") (upgraded index ns).
Proof.
  revert index. induction ns as [|n ns IH]; intros index; simpl; [constructor|].
  destruct (decide _); [|done]. by repeat constructor.
Qed.

Lemma upgraded_length index ns : length (upgraded index ns) ≤ 2 * length ns.
Proof.
  revert index. induction ns as [|n ns IH]; intros index; simpl; [lia|].
  destruct (decide _); simpl;
    [pose proof (IH (S index)) | pose proof (IH index)]; lia.
Qed.

Lemma dropout_positions_bounds k ns :
  Forall (λ j, k ≤ j < k + length ns) (dropout_positions k ns).
Proof.
  revert k. induction ns as [|n ns IH]; intros k; simpl; [constructor|].
  assert (Forall (λ j, k ≤ j < k + S (length ns)) (dropout_positions (S k) ns)).
  { eapply Forall_impl; [apply IH|]. simpl. lia. }
  destruct (decide _); [constructor; [lia|done]|done].
Qed.

Lemma dropout_positions_NoDup k ns : NoDup (dropout_positions k ns).
Proof.
  revert k. induction ns as [|n ns IH]; intros k; simpl; [constructor|].
  destruct (decide _); [|done]. constructor; [|done]. intros Hin.
  pose proof (dropout_positions_bounds (S k) ns) as Hb.
  rewrite Forall_forall in Hb. specialize (Hb k Hin). lia.
Qed.

(** Removing the Dropout positions keeps the other nodes and what was
    appended. *)
Lemma remove_dropout_positions k ns added :
  remove_at_from k (dropout_positions k ns) (ns ++ added)
  = filter (λ n, op_type n ≠ "Dropout") ns ++ added.
Proof.
  revert k. induction ns as [|n ns IH]; intros k; simpl.
  - by apply remove_at_from_none.
  - rewrite filter_cons. pose proof (dropout_positions_bounds (S k) ns) as Hb.
    rewrite Forall_forall in Hb.
    destruct (decide (op_type n = "Dropout")) as [Hd|Hd].
    + destruct (decide (k ∈ k :: dropout_positions (S k) ns)) as [_|Hn];
        [|exfalso; apply Hn, list_elem_of_here].
      destruct (decide (op_type n ≠ "Dropout")); [done|].
      rewrite <- (IH (S k)). apply remove_at_from_ext. intros j Hj.
      rewrite elem_of_cons. split; [intros [->|?]; [lia|done]|auto].
    + destruct (decide (k ∈ dropout_positions (S k) ns)) as [Hin|_];
        [specialize (Hb k Hin); lia|].
      destruct (decide (op_type n ≠ "Dropout")); [|done].
      simpl. by rewrite IH.
Qed.

(** One round of the loop on a Dropout node. *)
Lemma dropout_round model0 l i n fuel dropouts index :
  l !! i = Some n → op_type n = "Dropout" →
  n_input n ≠ [] → n_attribute n ≠ [] →
  process_dropout_loop (S fuel) i (set_nodes model0 l) dropouts index
  = (let model :=
       set_nodes model0
         (l ++ [trainable_dropout index n; ratio_constant index n]) in
     d ← or_raise TypeError (get_node_index model n);
     process_dropout_loop fuel (S i) model (dropouts ++ [d]) (S index)).
Proof.
  intros Hl Hd Hi Ha. cbn [process_dropout_loop]. rewrite nodes_set_nodes, Hl.
  destruct (decide _); [|done].
  unfold trainable_dropout, ratio_constant.
  destruct (n_input n) as [|input0 ins]; [done|].
  destruct (n_attribute n) as [|attr0 atts]; [done|].
  simpl. rewrite !nodes_set_nodes, !set_nodes_set_nodes.
  rewrite <- (app_assoc _ [_] [_]).
  rewrite insert_app_r_alt by lia. rewrite Nat.sub_diag. simpl.
  done.
Qed.

(** The rounds of the loop over the nodes the model had at the start. *)
Lemma dropout_loop_scan model0 rest :
  ∀ pre added dropouts index fuel,
  Forall (λ n, op_type n = "Dropout" → n_input n ≠ [] ∧ n_attribute n ≠ []) rest →
  NoDup (filter (λ n, op_type n = "Dropout") (pre ++ rest)) →
  ∃ index',
    process_dropout_loop (length rest + fuel) (length pre)
      (set_nodes model0 (pre ++ rest ++ added)) dropouts index
    = process_dropout_loop fuel (length pre + length rest)
        (set_nodes model0 (pre ++ rest ++ added ++ upgraded index rest))
        (dropouts ++ dropout_positions (length pre) rest) index'.
Proof.
  induction rest as [|n rest IH]; intros pre added dropouts index fuel Hwf Hnd.
  - exists index. simpl. by rewrite !app_nil_r, Nat.add_0_r.
  - apply Forall_cons in Hwf as [Hn Hwf].
    assert (Hlook : (pre ++ n :: rest ++ added) !! length pre = Some n)
      by apply list_lookup_middle, eq_refl.
    assert (Hnd' : NoDup (filter (λ n, op_type n = "Dropout") ((pre ++ [n]) ++ rest)))
      by (by rewrite <- app_assoc).
    assert (Hlen : length (pre ++ [n]) = S (length pre))
      by (rewrite length_app; simpl; lia).
    change ((n :: rest) ++ added) with (n :: rest ++ added).
    change (length (n :: rest) + fuel) with (S (length rest + fuel)).
    cbn [upgraded dropout_positions].
    destruct (decide (op_type n = "Dropout")) as [Hd|Hd].
    + destruct (Hn Hd) as [Hi Ha].
      rewrite (dropout_round _ _ _ n) by done. cbv zeta.
      assert (Hidx : get_node_index
                (set_nodes model0
                   ((pre ++ n :: rest ++ added)
                    ++ [trainable_dropout index n; ratio_constant index n])) n
              = Some (length pre)).
      { unfold get_node_index. rewrite nodes_set_nodes.
        erewrite (proj2 (list_find_Some _ _ (length pre) n)); [done|].
        split; [|split; [done|]].
        - rewrite lookup_app_l; [done|]. by apply lookup_lt_is_Some_1.
        - intros j y Hy Hj ->.
          rewrite lookup_app_l in Hy
            by (rewrite length_app; simpl; lia).
          rewrite lookup_app_l in Hy by done.
          rewrite filter_app in Hnd. apply NoDup_app in Hnd as (_ & Hdis & _).
          apply (Hdis n).
          + apply list_elem_of_filter. split; [done|].
            by apply list_elem_of_lookup_2 in Hy.
          + apply list_elem_of_filter. split; [done|]. apply list_elem_of_here. }
      rewrite Hidx. cbn [or_raise mbind res_bind].
      destruct (IH (pre ++ [n])
                  (added ++ [trainable_dropout index n; ratio_constant index n])
                  (dropouts ++ [length pre]) (S index) fuel Hwf Hnd')
        as [index' IH'].
      exists index'. rewrite Hlen in IH'.
      rewrite <- !app_assoc in IH'. cbn [app] in IH'.
      repeat (rewrite <- !app_assoc; cbn [app]).
      rewrite IH'. f_equal. simpl. lia.
    + cbn [process_dropout_loop]. rewrite nodes_set_nodes, Hlook.
      destruct (decide _); [done|].
      destruct (IH (pre ++ [n]) added dropouts index fuel Hwf Hnd')
        as [index' IH'].
      exists index'. rewrite Hlen in IH'. rewrite <- !app_assoc in IH'.
      cbn [app] in IH'. rewrite IH'. f_equal. simpl. lia.
Qed.

(** The rounds over the appended nodes, none of which is a Dropout. *)
Lemma dropout_loop_tail model0 added :
  ∀ pre dropouts index fuel,
  Forall (λ n, op_type n ≠ "Dropout") added →
  process_dropout_loop (S (length added + fuel)) (length pre)
    (set_nodes model0 (pre ++ added)) dropouts index
  = Ok (set_nodes model0 (pre ++ added), dropouts).
Proof.
  induction added as [|a added IH]; intros pre dropouts index fuel Hnd.
  - cbn [length Nat.add process_dropout_loop]. rewrite nodes_set_nodes.
    rewrite app_nil_r. by rewrite lookup_ge_None_2.
  - apply Forall_cons in Hnd as [Ha Hnd].
    cbn [length Nat.add process_dropout_loop]. rewrite nodes_set_nodes.
    rewrite list_lookup_middle by done.
    destruct (decide _); [done|].
    specialize (IH (pre ++ [a]) dropouts index fuel Hnd).
    rewrite length_app, <- app_assoc in IH. simpl in IH.
    by rewrite Nat.add_1_r in IH.
Qed.





(** ** Folding a shape computation *)











(** ** Defects *)

(** C6. The positions collected for the Concat of [shared_shape_model] are
    sorted but not deduplicated: position 0, the Shape node reached through
    both Gather nodes, is listed twice, so after the seven deletions the
    Reshape, which was never collected, is gone as well and only the Relu
    and the new Constant are left. *)
Theorem process_concat_shared_ancestor_deletes_reshape :
  for_each (concat_step 10 shared_shape_model) (nodes shared_shape_model) ([], [])
  = Ok ([(6, [0; 0]%Z)], [5; 3; 4; 1; 2; 0; 0])
  ∧ sort_desc id [5; 3; 4; 1; 2; 0; 0] = [5; 4; 3; 2; 1; 0; 0]
  ∧ ∃ model',
      process_concat 10 shared_shape_model = Ok model'
      ∧ nodes model' = [ mkNode "Relu" "" ["y"] ["z"] [];
                         shape_constant 0 [0; 0]%Z ].
Proof.
  split; [vm_compute; reflexivity|]. split; [vm_compute; reflexivity|].
  eexists. split; vm_compute; reflexivity.
Qed.

(** C8. The clean-up of [fix_transpose] on a folded weight that is not
    among the graph inputs: [find_input_index] gives [None], which is then
    used as an index (or compared by the sort when there are several
    weights), and the pass raises [TypeError] instead of removing the
    initializer entry alone. *)
Theorem fix_transpose_undeclared_weight_raises :
  find_input_index transpose_W_undeclared "W" = None
  ∧ fix_transpose transpose_W_undeclared = Raise TypeError
  ∧ fix_transpose transpose_two_weights = Raise TypeError
  ∧ (∀ (l : list ValueInfoProto), py_del_all_opt [None] l = Raise TypeError).
Proof.
  split; [reflexivity|]. split; [vm_compute; reflexivity|].
  split; [vm_compute; reflexivity|done].
Qed.

(** C3. A 4x3 initializer [W] feeding a Transpose with permutation [1, 0]
    and nothing else: when [W] is also declared among the graph inputs the
    pass gives the graph the claim describes; when it is an initializer
    only, the pass raises [TypeError] in its clean-up and gives no graph. *)
Theorem fix_transpose_4x3_weight :
  fix_transpose transpose_weight_declared
  = Ok (mkModel (mkGraph
          [ mkNode "MatMul" "" ["x"; "W_transposed"] ["y"] [] ]
          [ mkTensor "W_transposed" FLOAT [3; 4]
              [11; 21; 31; 41; 12; 22; 32; 42; 13; 23; 33; 43]%Z ]
          [ mkValueInfo "x" 1 ]) [mkOpset "" 9])
  ∧ fix_transpose transpose_weight_undeclared = Raise TypeError.
Proof. split; vm_compute; reflexivity. Qed.

(** ** Folding a transposed weight *)


Lemma occurrences_none (field : NodeProto → list string) (arg : string)
    (ns : list NodeProto) :
  Forall (λ n, arg ∉ field n) ns →
  flat_map (λ node,
    flat_map (λ v, if decide (v = arg) then [node] else []) (field node)) ns
  = [].
Proof.
  induction 1 as [|n ns Hn _ IH]; simpl; [done|].
  by rewrite (occurrences_nil_not_elem arg n _ Hn), IH.
Qed.






(** ** Remarks on the model *)

(** Every pair recorded by the first scan of [fix_transpose] holds the
    weight named by the first input of the node at the recorded index, so
    two pairs with the same index hold the same weight and the sort of the
    pairs never has to order two weights. *)
Lemma transpose_scan_weight_of_index (model : ModelProto) transpose perm :
  for_each (transpose_step model) (nodes model) ([], None) = Ok (transpose, perm) →
  ∀ i w w', (i, w) ∈ transpose → (i, w') ∈ transpose → w = w'.
Proof.
  intros Hscan.
  assert (Hinv : ∀ i w, (i, w) ∈ transpose →
            ∃ n input0, nodes model !! i = Some n
                        ∧ head (n_input n) = Some input0
                        ∧ find_initializer model input0 = Some w).
  { revert Hscan.
    apply (for_each_Ok_inv
             (λ st : transpose_state, ∀ i w, (i, w) ∈ st.1 →
                ∃ n input0, nodes model !! i = Some n
                            ∧ head (n_input n) = Some input0
                            ∧ find_initializer model input0 = Some w)
             (transpose_step model) (nodes model) ([], None) (transpose, perm)).
    - intros st n st' Hst Hstep. unfold transpose_step in Hstep.
      destruct (decide _); [|by injection Hstep as <-].
      destruct (head (n_input n)) as [input0|] eqn:Ei; [|done]. simpl in Hstep.
      destruct (find_initializer model input0) as [weight|] eqn:Ew;
        [|by injection Hstep as <-].
      destruct (decide _); [by injection Hstep as <-|].
      destruct (head (n_attribute n)); [|done]. simpl in Hstep.
      destruct (assert (bool_decide _)) as [[]| | |]; simpl in Hstep; try done.
      destruct (assert (is_perm_1_0 _)) as [[]| | |]; simpl in Hstep; try done.
      destruct (get_node_index model n) as [i0|] eqn:Eg; [|done].
      injection Hstep as <-. simpl. intros i w Hin.
      apply elem_of_app in Hin as [Hin|Hin]; [auto|].
      apply list_elem_of_singleton in Hin. injection Hin as -> ->.
      apply get_node_index_Some in Eg as [Eg _]. eauto.
    - intros i w Hin. by apply elem_of_nil in Hin. }
  intros i w w' Hw Hw'.
  destruct (Hinv i w Hw) as (n & input0 & Hn & Hi & Hf).
  destruct (Hinv i w' Hw') as (n' & input0' & Hn' & Hi' & Hf').
  congruence.
Qed.

(** More fuel does not change what the walk of [find_all_fused_nodes]
    returns. *)
Lemma find_all_fused_nodes_loop_mono fuel extra model candidate result out :
  find_all_fused_nodes_loop fuel model candidate result = Ok out →
  find_all_fused_nodes_loop (fuel + extra) model candidate result = Ok out.
Proof.
  revert candidate result.
  induction fuel as [|fuel IH]; intros candidate result H.
  - destruct candidate; [|done]. by destruct extra.
  - destruct candidate as [|node candidate]; [done|]. simpl in *.
    destruct (decide _); auto.
Qed.

Lemma py_del_all_not_OutOfFuel {A} (idxs : list nat) (l : list A) :
  py_del_all idxs l ≠ OutOfFuel.
Proof.
  revert l. induction idxs as [|i idxs IH]; intros l; simpl; [done|].
  unfold py_del. destruct (decide _); simpl; [apply IH|done].
Qed.

(** The fuel that [process_dropout] gives to its loop is enough, whatever
    the graph: the pass returns or raises. *)
Lemma dropout_loop_terminates model0 rest :
  ∀ pre added dropouts index fuel,
  Forall (λ n, op_type n ≠ "Dropout") added →
  3 * length rest + length added < fuel →
  process_dropout_loop fuel (length pre)
    (set_nodes model0 (pre ++ rest ++ added)) dropouts index ≠ OutOfFuel.
Proof.
  induction rest as [|n rest IH]; intros pre added dropouts index fuel Hadd Hfuel.
  - simpl in Hfuel. replace fuel with (S (length added + (fuel - S (length added))))
      by lia.
    cbn [app]. by rewrite dropout_loop_tail.
  - destruct fuel as [|fuel]; [simpl in Hfuel; lia|].
    assert (Hlook : (pre ++ n :: rest ++ added) !! length pre = Some n)
      by apply list_lookup_middle, eq_refl.
    assert (Hlen : length (pre ++ [n]) = S (length pre))
      by (rewrite length_app; simpl; lia).
    change ((n :: rest) ++ added) with (n :: rest ++ added).
    destruct (decide (op_type n = "Dropout")) as [Hd|Hd].
    + destruct (n_attribute n) as [|attr0 atts] eqn:Ea.
      { cbn [process_dropout_loop]. rewrite nodes_set_nodes, Hlook.
        destruct (decide _); [|done]. by rewrite Ea. }
      destruct (n_input n) as [|input0 ins] eqn:Ei.
      { cbn [process_dropout_loop]. rewrite nodes_set_nodes, Hlook.
        destruct (decide _); [|done]. by rewrite Ea, Ei. }
      rewrite (dropout_round _ _ _ n) by (done || by rewrite ?Ei, ?Ea).
      cbv zeta. destruct (get_node_index _ n) as [d|]; [|done].
      cbn [or_raise mbind res_bind].
      specialize (IH (pre ++ [n])
                    (added ++ [trainable_dropout index n; ratio_constant index n])
                    (dropouts ++ [d]) (S index) fuel).
      rewrite Hlen in IH. rewrite <- !app_assoc in IH. cbn [app] in IH.
      repeat (rewrite <- !app_assoc; cbn [app]).
      apply IH.
      * apply Forall_app. split; [done|]. by repeat constructor.
      * rewrite length_app. simpl in *. lia.
    + cbn [process_dropout_loop]. rewrite nodes_set_nodes, Hlook.
      destruct (decide _); [done|].
      specialize (IH (pre ++ [n]) added dropouts index fuel).
      rewrite Hlen in IH. rewrite <- !app_assoc in IH. cbn [app] in IH.
      apply IH; [done|]. simpl in *. lia.
Qed.

Lemma process_dropout_terminates (model : ModelProto) :
  process_dropout model ≠ OutOfFuel.
Proof.
  unfold process_dropout.
  pose proof (dropout_loop_terminates model (nodes model) [] [] [] 0
                (3 * length (nodes model) + 1)) as H.
  cbn [length app] in H. rewrite app_nil_r, set_nodes_id in H.
  destruct (process_dropout_loop _ _ _ _ _) as [[m dropouts]| | |] eqn:E;
    simpl; try done.
  - destruct (py_del_all _ _) eqn:E'; simpl; try done.
    by apply py_del_all_not_OutOfFuel in E'.
  - exfalso. apply H; [constructor|simpl; lia|done].
Qed.

(** * Further properties of the module *)

(** ** [add_name] *)

Lemma add_name_loop_idem (k : nat) (ns : list NodeProto) :
  add_name_loop k (add_name_loop k ns) = add_name_loop k ns.
Proof. revert k. induction ns as [|n ns IH]; intros k; simpl; by rewrite ?IH. Qed.

Lemma add_name_loop_fields (k : nat) (ns : list NodeProto) :
  op_type <$> add_name_loop k ns = op_type <$> ns
  ∧ n_input <$> add_name_loop k ns = n_input <$> ns
  ∧ n_output <$> add_name_loop k ns = n_output <$> ns
  ∧ n_attribute <$> add_name_loop k ns = n_attribute <$> ns.
Proof.
  revert k. induction ns as [|n ns IH]; intros k; [done|].
  cbn [add_name_loop]. rewrite !fmap_cons.
  destruct (IH (S k)) as (-> & -> & -> & ->). done.
Qed.

(** X1. [add_name] touches nothing but the names: the kinds, inputs, outputs
    and attributes of the nodes, the initializers, the graph inputs and the
    operator sets stay as they are; names already present are overwritten,
    so running it a second time changes nothing. *)
Theorem add_name_only_renames (model : ModelProto) :
  op_type <$> nodes (add_name model) = op_type <$> nodes model
  ∧ n_input <$> nodes (add_name model) = n_input <$> nodes model
  ∧ n_output <$> nodes (add_name model) = n_output <$> nodes model
  ∧ n_attribute <$> nodes (add_name model) = n_attribute <$> nodes model
  ∧ initializers (add_name model) = initializers model
  ∧ inputs (add_name model) = inputs model
  ∧ opset_import (add_name model) = opset_import model
  ∧ add_name (add_name model) = add_name model.
Proof.
  destruct (add_name_loop_fields 0 (nodes model)) as (H1 & H2 & H3 & H4).
  repeat split; try done.
  unfold add_name, set_nodes. simpl.
  change (nodes {| graph := {| g_node := add_name_loop 0 (nodes model);
                               g_initializer := initializers model;
                               g_input := inputs model |};
                   opset_import := opset_import model |})
    with (add_name_loop 0 (nodes model)).
  by rewrite add_name_loop_idem.
Qed.

Lemma add_name_nodes_NoDup (model : ModelProto) :
  NoDup (nodes (add_name model)).
Proof.
  apply NoDup_alt. intros i j n Hi Hj.
  unfold add_name, set_nodes, nodes in Hi, Hj; simpl in Hi, Hj.
  rewrite add_name_loop_lookup in Hi, Hj. simpl in Hi, Hj.
  destruct (g_node (graph model) !! i) as [ni|]; [|done].
  destruct (g_node (graph model) !! j) as [nj|]; [|done].
  simpl in *. injection Hi as <-. injection Hj as _ Hj _ _ _.
  by apply indexed_name_inj in Hj.
Qed.

(** X2. Once [add_name] has run, looking a node up by value gives its own
    position: no two nodes are equal messages any more, so
    [get_node_index] is exact for every node of the graph. *)
Theorem add_name_get_node_index (model : ModelProto) (i : nat) (n : NodeProto) :
  nodes (add_name model) !! i = Some n →
  get_node_index (add_name model) n = Some i.
Proof.
  intros Hi. apply unique_at_get_node_index. split; [done|].
  intros j Hj. pose proof (add_name_nodes_NoDup model) as Hnd.
  by apply (proj1 (NoDup_alt _) Hnd j i n).
Qed.

Lemma add_name_get_node_index_witness :
  get_node_index (add_name equal_relus) (mkNode "Relu" "Relu_1" ["x"] ["y"] [])
  = Some 1
  ∧ get_node_index equal_relus (mkNode "Relu" "" ["x"] ["y"] []) = Some 0.
Proof.
  split; [|reflexivity].
  apply (add_name_get_node_index equal_relus 1). reflexivity.
Defined.

(** ** Lookups *)

(** X3. [get_node_index] gives the first position that holds a node equal
    to the given one: it answers [None] exactly for the nodes that are not
    in the graph, and for a node that occurs several times it answers the
    earliest position. *)
Theorem get_node_index_first (model : ModelProto) (n : NodeProto) :
  (get_node_index model n = None ↔ n ∉ nodes model)
  ∧ (∀ i, get_node_index model n = Some i ↔
          nodes model !! i = Some n
          ∧ ∀ j, j < i → nodes model !! j ≠ Some n).
Proof.
  split.
  - split.
    + intros Hnone Hin. destruct (get_node_index_elem _ _ Hin) as [i Hi].
      congruence.
    + intros Hn. destruct (get_node_index model n) as [i|] eqn:E; [|done].
      apply get_node_index_Some in E as [E _].
      by apply list_elem_of_lookup_2 in E.
  - intros i. split.
    + intros H. apply get_node_index_Some in H as [Hi Hb]. split; [done|].
      intros j Hj Hc. by apply (Hb j n Hc Hj).
    + intros [Hi Hb]. unfold get_node_index.
      erewrite (proj2 (list_find_Some _ _ i n)); [done|].
      split; [done|]. split; [done|]. intros j y Hy Hj ->. by apply (Hb j).
Qed.

(** X4. The lookups by name agree with the lookups of a position: the
    initializer (graph input) found for a name is the one at the index found
    for it, it bears that name, it is the first to bear it, and nothing is
    found exactly when no entry bears the name. *)
Theorem find_by_name_index (model : ModelProto) (arg : string) :
  find_initializer model arg
  = (find_weight_index model arg ≫= λ i, initializers model !! i)
  ∧ find_input model arg
    = (find_input_index model arg ≫= λ i, inputs model !! i)
  ∧ (∀ w, find_initializer model arg = Some w → t_name w = arg)
  ∧ (∀ v, find_input model arg = Some v → vi_name v = arg)
  ∧ (∀ i, find_weight_index model arg = Some i →
          ∀ j w, j < i → initializers model !! j = Some w → t_name w ≠ arg)
  ∧ (∀ i, find_input_index model arg = Some i →
          ∀ j v, j < i → inputs model !! j = Some v → vi_name v ≠ arg)
  ∧ (find_initializer model arg = None ↔
       Forall (λ w, t_name w ≠ arg) (initializers model))
  ∧ (find_input_index model arg = None ↔
       Forall (λ v, vi_name v ≠ arg) (inputs model)).
Proof.
  unfold find_initializer, find_weight_index, find_input, find_input_index.
  repeat split.
  - destruct (list_find _ (initializers model)) as [[i w]|] eqn:E; [|done].
    apply list_find_Some in E as (Hl & _). simpl. by rewrite Hl.
  - destruct (list_find _ (inputs model)) as [[i v]|] eqn:E; [|done].
    apply list_find_Some in E as (Hl & _). simpl. by rewrite Hl.
  - intros w H. apply fmap_Some in H as ([i w'] & E & ->).
    by apply list_find_Some in E as (_ & ? & _).
  - intros v H. apply fmap_Some in H as ([i v'] & E & ->).
    by apply list_find_Some in E as (_ & ? & _).
  - intros i H j w Hj Hw. apply fmap_Some in H as ([i' w'] & E & ->).
    apply list_find_Some in E as (_ & _ & Hb). by apply (Hb j w).
  - intros i H j v Hj Hv. apply fmap_Some in H as ([i' v'] & E & ->).
    apply list_find_Some in E as (_ & _ & Hb). by apply (Hb j v).
  - intros H. apply fmap_None in H. by apply list_find_None in H.
  - intros H. apply fmap_None. by apply list_find_None.
  - intros H. apply fmap_None in H. by apply list_find_None in H.
  - intros H. apply fmap_None. by apply list_find_None.
Qed.

(** X5. A producer found by [find_input_node] is a node of the graph that
    has the value among its outputs, it stands at one position only, and no
    node at another position has that value among its outputs. *)
Theorem find_input_node_unique (model : ModelProto) (arg : string) (n : NodeProto) :
  find_input_node model arg = Some n →
  ∃ p, unique_at (nodes model) p n
       ∧ arg ∈ n_output n
       ∧ ∀ j m, nodes model !! j = Some m → arg ∈ n_output m → j = p.
Proof.
  intros H. apply find_input_node_filter in H.
  destruct (filter_singleton_unique_at _ _ _ H) as (Hn & p & Hp).
  exists p. split; [done|]. split; [done|]. intros j m Hj Hm.
  assert (m ∈ filter (λ n, arg ∈ n_output n) (nodes model)) as Hin.
  { apply list_elem_of_filter. split; [done|]. by apply list_elem_of_lookup_2 in Hj. }
  rewrite H in Hin. apply list_elem_of_singleton in Hin. subst m.
  by apply Hp.
Qed.

Lemma find_input_node_unique_witness :
  ∃ p, unique_at (nodes shape_chain_model) p
         (mkNode "Unsqueeze" "" ["k2"] ["a2"] [])
       ∧ p = 4.
Proof.
  destruct (find_input_node_unique shape_chain_model "a2"
              (mkNode "Unsqueeze" "" ["k2"] ["a2"] [])) as (p & Hp & _).
  - reflexivity.
  - exists p. split; [done|]. symmetry. by apply Hp.
Defined.

(** X6. The same for [find_output_node]: the consumer found is a node of the
    graph, at one position only, that reads the value, and no node at
    another position reads it. *)
Theorem find_output_node_unique (model : ModelProto) (arg : string) (n : NodeProto) :
  find_output_node model arg = Some n →
  ∃ p, unique_at (nodes model) p n
       ∧ arg ∈ n_input n
       ∧ ∀ j m, nodes model !! j = Some m → arg ∈ n_input m → j = p.
Proof.
  intros H. apply find_output_node_filter in H.
  destruct (filter_singleton_unique_at _ _ _ H) as (Hn & p & Hp).
  exists p. split; [done|]. split; [done|]. intros j m Hj Hm.
  assert (m ∈ filter (λ n, arg ∈ n_input n) (nodes model)) as Hin.
  { apply list_elem_of_filter. split; [done|]. by apply list_elem_of_lookup_2 in Hj. }
  rewrite H in Hin. apply list_elem_of_singleton in Hin. subst m.
  by apply Hp.
Qed.

Lemma find_output_node_unique_witness :
  ∃ p, unique_at (nodes shape_chain_model) p
         (mkNode "Reshape" "" ["x"; "co"] ["y"] [])
       ∧ p = 7.
Proof.
  destruct (find_output_node_unique shape_chain_model "co"
              (mkNode "Reshape" "" ["x"; "co"] ["y"] [])) as (p & Hp & _).
  - reflexivity.
  - exists p. split; [done|]. symmetry. by apply Hp.
Defined.

Lemma occurrences_twice (x : NodeProto) (arg : string) (l : list string) (i j : nat) :
  i < j → l !! i = Some arg → l !! j = Some arg →
  2 ≤ length (flat_map (λ v, if decide (v = arg) then [x] else []) l).
Proof.
  revert i j. induction l as [|v l IH]; intros i j Hij Hi Hj; [done|].
  simpl. destruct i as [|i].
  - simpl in Hi. injection Hi as ->. destruct (decide _); [|done].
    destruct j as [|j]; [lia|]. simpl in Hj.
    destruct (occurrences_elem n_output arg x l) as [rest ->]; [|simpl; lia].
    by apply list_elem_of_lookup_2 in Hj.
  - destruct j as [|j]; [lia|]. simpl in Hi, Hj.
    rewrite length_app. specialize (IH i j ltac:(lia) Hi Hj). lia.
Qed.

Lemma producers_length_ge (model : ModelProto) (arg : string) (n : NodeProto) :
  n ∈ nodes model →
  length (flat_map (λ v, if decide (v = arg) then [n] else []) (n_output n))
  ≤ length (producers model arg).
Proof.
  unfold producers. generalize (nodes model) as ns.
  induction ns as [|x ns IH]; intros Hin; [by apply elem_of_nil in Hin|].
  simpl. rewrite length_app. apply elem_of_cons in Hin as [->|Hin]; [lia|].
  specialize (IH Hin). lia.
Qed.

(** X7. The scan of [find_input_node] counts output slots, not nodes: a
    value that one node lists twice among its outputs has no producer for
    [find_input_node], even if no other node produces it. *)
Theorem find_input_node_repeated_output
    (model : ModelProto) (arg : string) (n : NodeProto) (i j : nat) :
  n ∈ nodes model → i < j →
  n_output n !! i = Some arg → n_output n !! j = Some arg →
  find_input_node model arg = None.
Proof.
  intros Hn Hij Hi Hj. unfold find_input_node.
  pose proof (producers_length_ge model arg n Hn) as Hle.
  pose proof (occurrences_twice n arg _ i j Hij Hi Hj) as H2.
  by destruct (producers model arg) as [|? [|??]]; simpl in *; try lia.
Qed.

Lemma find_input_node_repeated_output_witness :
  find_input_node repeated_output "s" = None.
Proof.
  apply (find_input_node_repeated_output repeated_output "s"
           (mkNode "Split" "" ["x"] ["s"; "s"] []) 0 1).
  - apply list_elem_of_here.
  - lia.
  - reflexivity.
  - reflexivity.
Defined.

(** ** [find_all_fused_nodes] *)

Lemma find_input_node_elem (model : ModelProto) (arg : string) (n : NodeProto) :
  find_input_node model arg = Some n → n ∈ nodes model.
Proof.
  intros H. apply find_input_node_filter in H.
  assert (n ∈ filter (λ n, arg ∈ n_output n) (nodes model)) as Hin
    by (rewrite H; apply list_elem_of_here).
  by apply list_elem_of_filter in Hin as [_ ?].
Qed.

Lemma find_all_fused_nodes_loop_result fuel model candidate result out :
  find_all_fused_nodes_loop fuel model candidate result = Ok out →
  ∃ tail, out = result ++ tail
          ∧ Forall (λ m, m ∈ candidate ∨ m ∈ nodes model) tail
          ∧ (∀ c cs, candidate = c :: cs → ∃ t, tail = c :: t).
Proof.
  revert candidate result.
  induction fuel as [|fuel IH]; intros candidate result H.
  - destruct candidate; [|done]. simpl in H. injection H as <-.
    exists []. by rewrite app_nil_r.
  - destruct candidate as [|node candidate].
    { simpl in H. injection H as <-. exists []. by rewrite app_nil_r. }
    simpl in H.
    assert (∃ cand', find_all_fused_nodes_loop fuel model cand' (result ++ [node])
                     = Ok out
                     ∧ Forall (λ m, m ∈ candidate ∨ m ∈ nodes model) cand')
      as (cand' & Hrec & Hcand).
    { destruct (decide _).
      - exists candidate. split; [done|]. apply Forall_forall. auto.
      - eexists. split; [done|]. apply Forall_app. split.
        + apply Forall_forall. auto.
        + apply Forall_forall. intros m Hm.
          apply list_elem_of_omap in Hm as (a & _ & Ha). right.
          by apply find_input_node_elem in Ha. }
    apply IH in Hrec as (tail & -> & Htail & _).
    exists (node :: tail). rewrite <- app_assoc. split; [done|]. split.
    + constructor; [left; apply list_elem_of_here|].
      rewrite Forall_forall in Htail, Hcand |- *. intros m Hm.
      destruct (Htail m Hm) as [Hc|?]; [|auto].
      destruct (Hcand m Hc) as [?|?]; [|auto].
      left. by apply list_elem_of_further.
    + intros c cs [= <- <-]. eauto.
Qed.

(** X8. What [find_all_fused_nodes] returns starts with the node it was
    given, and the nodes after it are nodes of the graph. *)
Theorem find_all_fused_nodes_result
    (fuel : nat) (model : ModelProto) (concat_node : NodeProto)
    (out : list NodeProto) :
  find_all_fused_nodes fuel model concat_node = Ok out →
  ∃ tail, out = concat_node :: tail ∧ Forall (λ m, m ∈ nodes model) tail.
Proof.
  unfold find_all_fused_nodes. intros H.
  assert (Hgen : ∀ fuel candidate result out,
    find_all_fused_nodes_loop fuel model candidate result = Ok out →
    Forall (λ m, m ∈ nodes model) (drop 1 candidate) →
    ∃ tail, out = result ++ tail
            ∧ take 1 tail = take 1 candidate
            ∧ Forall (λ m, m ∈ nodes model) (drop 1 tail)).
  { clear. induction fuel as [|fuel IH]; intros candidate result out H Hc.
    - destruct candidate; [|done]. simpl in H. injection H as <-.
      exists []. by rewrite app_nil_r.
    - destruct candidate as [|node candidate].
      { simpl in H. injection H as <-. exists []. by rewrite app_nil_r. }
      simpl in H, Hc.
      assert (∃ cand', find_all_fused_nodes_loop fuel model cand'
                         (result ++ [node]) = Ok out
                       ∧ Forall (λ m, m ∈ nodes model) cand')
        as (cand' & Hrec & Hcand).
      { destruct (decide _); [eauto|]. eexists. split; [done|].
        apply Forall_app. split; [done|]. apply Forall_forall. intros m Hm.
        apply list_elem_of_omap in Hm as (a & _ & Ha).
        by apply find_input_node_elem in Ha. }
      pose proof (find_all_fused_nodes_loop_result _ _ _ _ _ Hrec)
        as (tail & -> & Htail & _).
      exists (node :: tail). rewrite <- app_assoc. split; [done|].
      split; [done|]. simpl. rewrite Forall_forall in Htail, Hcand |- *.
      intros m Hm. destruct (Htail m Hm); auto. }
  destruct (Hgen _ _ _ _ H) as (tail & -> & Hhd & Htl); [constructor|].
  destruct tail as [|t tail]; [done|]. simpl in Hhd. injection Hhd as ->.
  eauto.
Qed.

Lemma find_all_fused_nodes_result_witness :
  ∃ tail, [ mkNode "Relu" "" ["y"] ["z"] [];
            mkNode "Reshape" "" ["x"; "co"] ["y"] [];
            mkNode "Concat" "" ["a1"; "a2"; "a3"] ["co"] [];
            mkNode "Unsqueeze" "" ["k1"] ["a1"] [];
            mkNode "Unsqueeze" "" ["k2"] ["a2"] [];
            mkNode "Unsqueeze" "" ["k3"] ["a3"] [];
            mkNode "Constant" "" [] ["k1"] [int64_scalar 2];
            mkNode "Constant" "" [] ["k2"] [int64_scalar 0];
            mkNode "Constant" "" [] ["k3"] [int64_scalar 768] ]
          = mkNode "Relu" "" ["y"] ["z"] [] :: tail
          ∧ Forall (λ m, m ∈ nodes shape_chain_model) tail.
Proof.
  apply (find_all_fused_nodes_result 20 shape_chain_model). reflexivity.
Defined.

(** X9. The walk stops at a Shape node and at a node none of whose inputs
    has a unique producer: started there, it returns that node alone. *)
Theorem find_all_fused_nodes_stops
    (fuel : nat) (model : ModelProto) (n : NodeProto) :
  op_type n = "Shape"
  ∨ Forall (λ a, find_input_node model a = None) (n_input n) →
  find_all_fused_nodes (S fuel) model n = Ok [n].
Proof.
  intros H. unfold find_all_fused_nodes. simpl.
  destruct (decide _) as [_|Hns]; [by destruct fuel|].
  destruct H as [?|H]; [done|].
  replace (omap (find_input_node model) (n_input n)) with (@nil NodeProto);
    [by destruct fuel|].
  symmetry. induction H as [|a l Ha _ IH]; simpl; [done|]. by rewrite Ha.
Qed.

Lemma find_all_fused_nodes_stops_witness :
  find_all_fused_nodes 1 shared_shape_model (mkNode "Shape" "" ["x"] ["s"] [])
  = Ok [mkNode "Shape" "" ["x"] ["s"] []].
Proof. apply find_all_fused_nodes_stops. by left. Defined.

(** X10. On a node that reads its own output (and is not a Shape) the walk
    never ends: the node is queued again every time it is visited, so the
    loop runs out of any amount of fuel. *)
Theorem find_all_fused_nodes_self_loop
    (model : ModelProto) (n : NodeProto) (a : string) :
  find_input_node model a = Some n → a ∈ n_input n → op_type n ≠ "Shape" →
  ∀ fuel, find_all_fused_nodes fuel model n = OutOfFuel.
Proof.
  intros Hfind Ha Hns fuel. unfold find_all_fused_nodes.
  assert (Hgen : ∀ fuel candidate result, n ∈ candidate →
            find_all_fused_nodes_loop fuel model candidate result = OutOfFuel).
  { clear fuel. induction fuel as [|fuel IH]; intros candidate result Hin.
    - destruct candidate; [by apply elem_of_nil in Hin|done].
    - destruct candidate as [|node candidate]; [by apply elem_of_nil in Hin|].
      simpl. apply elem_of_cons in Hin as [<-|Hin].
      + destruct (decide _); [done|]. apply IH. apply elem_of_app. right.
        apply list_elem_of_omap. eauto.
      + destruct (decide _); apply IH; [done|]. apply elem_of_app. by left. }
  apply Hgen, list_elem_of_here.
Qed.

Lemma find_all_fused_nodes_self_loop_witness :
  find_all_fused_nodes 1000 self_feeding (mkNode "Add" "" ["acc"; "x"] ["acc"] [])
  = OutOfFuel.
Proof.
  apply (find_all_fused_nodes_self_loop self_feeding _ "acc").
  - reflexivity.
  - apply list_elem_of_here.
  - discriminate.
Defined.

(** ** [add_const] and [replace_input_arg] *)

Lemma producers_app (model : ModelProto) (ns : list NodeProto) (arg : string) :
  producers (set_nodes model (nodes model ++ ns)) arg
  = producers model arg
    ++ flat_map (λ node,
         flat_map (λ output, if decide (output = arg) then [node] else [])
                  (n_output node)) ns.
Proof. unfold producers. rewrite nodes_set_nodes. apply flat_map_app. Qed.

(** X11. [add_const], given a tensor or a float, appends one Constant node
    with the given name and the single output [output], and returns it; the
    tensor wins when both are given.  Producers of other values are found as
    before; the new node is the producer of [output] if nothing produced
    that value before, and otherwise [output] no longer has a unique
    producer. *)
Theorem add_const_appends (model : ModelProto) (name output : string)
    (t_value : option TensorProto) (f_value : option float32) :
  is_Some t_value ∨ is_Some f_value →
  ∃ attr,
    let const_node := mkNode "Constant" name [] [output] [attr] in
    let model' := set_nodes model (nodes model ++ [const_node]) in
    add_const model name output t_value f_value = Ok (model', const_node)
    ∧ a_name attr = "value"
    ∧ (∀ t, t_value = Some t → a_type attr = 4%Z ∧ a_t attr = t)
    ∧ (∀ f, t_value = None → f_value = Some f → a_type attr = 1%Z ∧ a_f attr = f)
    ∧ (∀ arg, arg ≠ output →
         find_input_node model' arg = find_input_node model arg)
    ∧ (producers model output = [] →
         find_input_node model' output = Some const_node)
    ∧ (producers model output ≠ [] → find_input_node model' output = None).
Proof.
  intros Hval.
  assert (∃ attr, add_const model name output t_value f_value
            = Ok (set_nodes model
                    (nodes model ++ [mkNode "Constant" name [] [output] [attr]]),
                  mkNode "Constant" name [] [output] [attr])
          ∧ a_name attr = "value"
          ∧ (∀ t, t_value = Some t → a_type attr = 4%Z ∧ a_t attr = t)
          ∧ (∀ f, t_value = None → f_value = Some f →
                  a_type attr = 1%Z ∧ a_f attr = f))
    as (attr & Hadd & Hname & Ht & Hf).
  { unfold add_const. destruct t_value as [t|].
    - eexists. split; [reflexivity|]. split; [done|]. split; [|done].
      by intros ? [= <-].
    - destruct f_value as [f|].
      + eexists. split; [reflexivity|]. split; [done|]. split; [done|].
        by intros ? _ [= <-].
      + by destruct Hval as [[? ?]|[? ?]]. }
  exists attr. cbv zeta. split; [done|]. split; [done|]. split; [done|].
  split; [done|]. unfold find_input_node.
  split; [|split].
  - intros arg Hne. rewrite producers_app. simpl.
    destruct (decide (output = arg)); [done|]. by rewrite !app_nil_r.
  - intros Hnil. rewrite producers_app, Hnil. simpl.
    by destruct (decide (output = output)).
  - intros Hne. rewrite producers_app. simpl.
    destruct (decide (output = output)); [|done].
    by destruct (producers model output) as [|? [|??]].
Qed.

Lemma add_const_appends_witness :
  ∃ node,
    add_const shape_chain_model "c" "k1" None (Some ratio_0_1)
    = Ok (set_nodes shape_chain_model (nodes shape_chain_model ++ [node]), node)
    ∧ find_input_node
        (set_nodes shape_chain_model (nodes shape_chain_model ++ [node])) "k1"
      = None.
Proof.
  destruct (add_const_appends shape_chain_model "c" "k1" None (Some ratio_0_1))
    as (attr & Hadd & _ & _ & _ & _ & _ & Hdup).
  - right. by eexists.
  - eexists. split; [exact Hadd|]. apply Hdup. discriminate.
Defined.

Lemma nodes_replace_input_arg model arg new_arg :
  nodes (replace_input_arg model arg new_arg)
  = rename_input arg new_arg <$> nodes model.
Proof. done. Qed.

Lemma occurrences_fmap (field : NodeProto → list string) (f : NodeProto → NodeProto)
    (g : string → string) (v : string) (ns : list NodeProto) :
  (∀ n, field (f n) = g <$> field n) →
  (∀ i, g i = v ↔ i = v) →
  flat_map (λ node,
    flat_map (λ i, if decide (i = v) then [node] else []) (field node)) (f <$> ns)
  = f <$> flat_map (λ node,
      flat_map (λ i, if decide (i = v) then [node] else []) (field node)) ns.
Proof.
  intros Hfield Hg. induction ns as [|n ns IH]; [done|].
  rewrite fmap_cons. cbn [flat_map]. rewrite fmap_app, IH. f_equal.
  rewrite Hfield. clear IH. induction (field n) as [|i l IHl]; [done|].
  rewrite fmap_cons. cbn [flat_map]. rewrite fmap_app, IHl. f_equal.
  destruct (decide (g i = v)) as [Hi|Hi], (decide (i = v)) as [Hi'|Hi'];
    [done| |exfalso; by apply Hi, Hg|done].
  exfalso. by apply Hi', Hg.
Qed.

(** X12. After [replace_input_arg model arg new_arg], with two different
    names, no node reads [arg] any more, so [arg] has no consumer.  Only
    node inputs change: a producer is found exactly where one was found
    before, and so is the consumer of any value other than the two names. *)
Theorem replace_input_arg_spec (model : ModelProto) (arg new_arg : string) :
  arg ≠ new_arg →
  let model' := replace_input_arg model arg new_arg in
  Forall (λ n, arg ∉ n_input n) (nodes model')
  ∧ find_output_node model' arg = None
  ∧ (∀ v, find_input_node model' v
          = rename_input arg new_arg <$> find_input_node model v)
  ∧ (∀ v, v ≠ arg → v ≠ new_arg →
          find_output_node model' v
          = rename_input arg new_arg <$> find_output_node model v)
  ∧ initializers model' = initializers model
  ∧ inputs model' = inputs model
  ∧ opset_import model' = opset_import model.
Proof.
  intros Hne model'.
  assert (Hall : Forall (λ n, arg ∉ n_input n) (nodes model')).
  { unfold model'. rewrite nodes_replace_input_arg. apply Forall_fmap.
    apply Forall_forall. intros n _ Hin. simpl in Hin.
    apply list_elem_of_fmap in Hin as (i & Hi & _).
    destruct (decide (i = arg)); congruence. }
  split; [done|]. split; [|split; [|split]].
  - unfold find_output_node, consumers.
    by rewrite (occurrences_none n_input _ _ Hall).
  - intros v. unfold find_input_node, producers, model'.
    rewrite nodes_replace_input_arg.
    rewrite (occurrences_fmap n_output (rename_input arg new_arg) id v);
      [|intros n; simpl; by rewrite list_fmap_id|done].
    by destruct (flat_map _ _) as [|? [|??]].
  - intros v Hv Hv'. unfold find_output_node, consumers, model'.
    rewrite nodes_replace_input_arg.
    rewrite (occurrences_fmap n_input (rename_input arg new_arg)
               (λ i, if decide (i = arg) then new_arg else i) v); [|done|].
    + by destruct (flat_map _ _) as [|? [|??]].
    + intros i. destruct (decide (i = arg)); split; congruence.
  - done.
Qed.

Lemma replace_input_arg_spec_witness :
  find_output_node (replace_input_arg shape_chain_model "co" "shape") "co" = None
  ∧ find_output_node (replace_input_arg shape_chain_model "co" "shape") "shape"
    = Some (mkNode "Reshape" "" ["x"; "shape"] ["y"] []).
Proof.
  split; [|reflexivity].
  apply (replace_input_arg_spec shape_chain_model "co" "shape"). discriminate.
Defined.

(** ** Deleting a batch of positions *)

(** X13. Sorting a list of pairwise distinct, in-range positions in
    descending order and deleting them one by one removes exactly the
    elements at those positions: what is left is the rest of the list in its
    order, shorter by the number of positions. *)
Theorem delete_batch_descending {A} (idxs : list nat) (l : list A) :
  NoDup idxs → Forall (λ j, j < length l) idxs →
  ∃ l', py_del_all (sort_desc id idxs) l = Ok l'
        ∧ l' = remove_at_from 0 idxs l
        ∧ l' `sublist_of` l
        ∧ length l' + length idxs = length l
        ∧ ∀ x, x ∈ l' ↔ ∃ j, l !! j = Some x ∧ j ∉ idxs.
Proof.
  intros Hnd Hlt. exists (remove_at_from 0 idxs l).
  split; [by apply py_del_all_sort_desc|]. split; [done|].
  split; [|split].
  - clear Hnd Hlt. generalize 0.
    induction l as [|x l IH]; intros k; simpl; [done|].
    destruct (decide _); [apply sublist_cons|apply sublist_skip]; apply IH.
  - pose proof (py_del_all_sort_desc idxs l Hnd Hlt) as Hdel.
    rewrite <- (Permutation_length (sort_desc_Permutation id idxs)).
    pose proof (sort_desc_strict idxs Hnd) as Hs.
    rewrite <- (sort_desc_Permutation id idxs) in Hlt.
    revert Hdel. generalize (remove_at_from 0 idxs l) as l'.
    generalize dependent l.
    induction Hs as [|i rest Hs IH Hi]; intros l Hlt l' Hdel.
    + simpl in Hdel. injection Hdel as <-. simpl. lia.
    + apply Forall_cons in Hlt as [Hil Hlt]. simpl in Hdel. unfold py_del in Hdel.
      destruct (decide _); [|done]. simpl in Hdel.
      assert (Hlen : length (delete i l) = length l - 1)
        by (apply length_delete; by apply lookup_lt_is_Some).
      apply IH in Hdel.
      * simpl. lia.
      * rewrite Forall_forall in Hi, Hlt |- *. intros j Hj.
        specialize (Hi j Hj). lia.
  - intros x. rewrite elem_of_remove_at_from. by simpl.
Qed.

Lemma delete_batch_descending_witness :
  py_del_all (sort_desc id [1; 3; 0]) ["a"; "b"; "c"; "d"; "e"] = Ok ["c"; "e"].
Proof.
  destruct (delete_batch_descending [1; 3; 0] ["a"; "b"; "c"; "d"; "e"])
    as (l' & H & -> & _).
  - repeat constructor; rewrite ?elem_of_cons, ?elem_of_nil; lia.
  - repeat constructor.
  - exact H.
Defined.

(** X14. If one of the positions is past the end of the list, the batch
    raises [IndexError] at its first deletion, the largest position being
    deleted first. *)
Theorem delete_batch_out_of_range {A} (idxs : list nat) (l : list A) :
  Exists (λ j, length l ≤ j) idxs →
  py_del_all (sort_desc id idxs) l = Raise IndexError.
Proof.
  intros Hex. apply Exists_exists in Hex as (j & Hj & Hge).
  rewrite <- (sort_desc_Permutation id idxs) in Hj.
  pose proof (sort_desc_sorted id idxs) as Hs. simpl in Hs.
  destruct (sort_desc id idxs) as [|m rest]; [by apply elem_of_nil in Hj|].
  assert (j ≤ m) as Hjm.
  { apply elem_of_cons in Hj as [->|Hj]; [done|].
    apply StronglySorted_inv in Hs as [_ Hm].
    rewrite Forall_forall in Hm. by apply Hm. }
  simpl. unfold py_del. destruct (decide _); [lia|done].
Qed.

Lemma delete_batch_out_of_range_witness :
  py_del_all (sort_desc id [0; 5; 1]) ["a"; "b"; "c"] = Raise IndexError.
Proof.
  apply delete_batch_out_of_range. apply Exists_cons_tl, Exists_cons_hd.
  simpl. lia.
Defined.

(** ** [process_concat] *)

(** X15. A Concat all of whose inputs have a unique producer, one of them
    not an Unsqueeze, is passed over: a graph whose Concat nodes are all of
    that kind (or that has no Concat) comes out of [process_concat] as it
    went in, with no new Constant and no deletion. *)
Theorem process_concat_skips_other_producers (fuel : nat) (model : ModelProto) :
  Forall (λ n, op_type n = "Concat" →
               Forall (λ a, is_Some (find_input_node model a)) (n_input n)
               ∧ Exists (λ a, ∃ p, find_input_node model a = Some p
                                   ∧ op_type p ≠ "Unsqueeze") (n_input n))
         (nodes model) →
  process_concat fuel model = Ok model.
Proof.
  intros Hall. unfold process_concat. rewrite for_each_skip.
  - simpl. by rewrite set_nodes_id.
  - intros n Hn. rewrite Forall_forall in Hall. specialize (Hall n Hn).
    unfold concat_step. destruct (decide _) as [|Hc]; [done|].
    destruct Hall as [Hprod Hother]; [by destruct (decide (op_type n = "Concat"))|].
    destruct (concat_inputs_total model (n_input n) false [] Hprod) as [skip' H].
    rewrite H. simpl. apply concat_inputs_Ok in H as (_ & _ & Hs).
    destruct skip'; [done|]. destruct Hs as [_ Hs].
    by discriminate Hs; right.
Qed.

Lemma process_concat_skips_other_producers_witness :
  process_concat 0 concat_of_cast = Ok concat_of_cast.
Proof.
  apply process_concat_skips_other_producers.
  unfold concat_of_cast, nodes. simpl.
  repeat (apply Forall_cons; split); try apply Forall_nil; try discriminate;
    try exact I.
  intros _. split.
  - repeat (apply Forall_cons; split); try apply Forall_nil; by eexists.
  - apply Exists_cons_hd. eexists. split; [reflexivity|discriminate].
Defined.

Lemma insert_shapes_frame model new_nodes index model' :
  insert_shapes model new_nodes index = Ok model' →
  initializers model' = initializers model ∧ inputs model' = inputs model.
Proof.
  revert model index. induction new_nodes as [|[i shape] rest IH];
    intros model index H; simpl in H.
  - by injection H as <-.
  - destruct (np_asarray_int64 shape) as [arr| | |]; try done. simpl in H.
    destruct (_ !! i) as [r|]; try done. simpl in H.
    destruct (decide _); try done. by apply IH in H.
Qed.

(** X16. [process_concat] works on the node list only: whenever it returns,
    the initializers, the graph inputs and the operator sets of the result
    are those of the model it was given. *)
Theorem process_concat_frame (fuel : nat) (model model' : ModelProto) :
  process_concat fuel model = Ok model' →
  initializers model' = initializers model
  ∧ inputs model' = inputs model
  ∧ opset_import model' = opset_import model.
Proof.
  intros H. split; [|split; [|by apply process_concat_opset in H]];
    unfold process_concat in H;
    destruct (for_each _ _ _) as [[new_nodes delete_nodes]| | |]; try done;
    simpl in H; destruct (insert_shapes _ _ _) as [m1| | |] eqn:E1; try done;
    simpl in H; destruct (py_del_all _ _) as [ns| | |]; try done;
    injection H as <-; by apply insert_shapes_frame in E1 as [? ?].
Qed.

Lemma process_concat_frame_witness :
  ∃ model', process_concat 10 shape_chain_model = Ok model'
            ∧ inputs model' = [mkValueInfo "x" 1].
Proof.
  assert (∃ model', process_concat 10 shape_chain_model = Ok model')
    as [model' H] by (eexists; vm_compute; reflexivity).
  exists model'. split; [done|].
  by destruct (process_concat_frame 10 shape_chain_model model' H) as (_ & -> & _).
Defined.

(** ** [fix_transpose] *)

(** X17. Transposes that [fix_transpose] does not fold are left as they
    are: if every Transpose of the graph reads a value that is not an
    initializer, or an initializer that more than one node input refers to,
    the pass returns the model unchanged. *)
Theorem fix_transpose_leaves_others (model : ModelProto) :
  Forall (λ n, op_type n = "Transpose" →
               ∃ a, head (n_input n) = Some a
                    ∧ (find_initializer model a = None
                       ∨ ∃ w, find_initializer model a = Some w
                              ∧ 1 < length (consumers model (t_name w))))
         (nodes model) →
  fix_transpose model = Ok model.
Proof.
  intros Hall. unfold fix_transpose. rewrite for_each_skip.
  - by destruct model as [[? ? ?] ?].
  - intros n Hn. rewrite Forall_forall in Hall. specialize (Hall n Hn).
    unfold transpose_step. destruct (decide _) as [Ht|]; [|done].
    destruct (Hall Ht) as (a & -> & [Hnone|(w & Hw & Hmany)]); simpl.
    + by rewrite Hnone.
    + rewrite Hw. by destruct (decide _).
Qed.

Lemma fix_transpose_leaves_others_witness :
  fix_transpose transposes_left_alone = Ok transposes_left_alone.
Proof.
  apply fix_transpose_leaves_others.
  unfold transposes_left_alone, nodes. simpl.
  repeat (apply Forall_cons; split); try apply Forall_nil; try exact I.
  - intros _. exists "x". split; [done|]. by left.
  - intros _. exists "W". split; [done|]. right. exists weight_W.
    split; [done|]. vm_compute. lia.
  - discriminate.
Defined.





(** ** [process_dropout] *)

Lemma dropout_first_positions_length pre rest :
  length (dropout_first_positions pre rest)
  = length (filter (λ n, op_type n = "Dropout") rest).
Proof.
  revert pre. induction rest as [|n rest IH]; intros pre; [done|].
  rewrite filter_cons. simpl. destruct (decide _); simpl; by rewrite IH.
Qed.

Lemma dropout_first_positions_bound pre rest :
  Forall (λ j, j < length pre + length rest) (dropout_first_positions pre rest).
Proof.
  revert pre. induction rest as [|n rest IH]; intros pre; simpl; [constructor|].
  specialize (IH (pre ++ [n])). rewrite length_app in IH. simpl in IH.
  replace (length pre + 1 + length rest) with (length pre + S (length rest))
    in IH by lia.
  destruct (decide _); [|done]. constructor; [|done].
  destruct (list_find _ _) as [[j x]|] eqn:E; simpl; [|lia].
  apply list_find_Some in E as [E _]. apply lookup_lt_Some in E.
  rewrite length_app in E. simpl in E. lia.
Qed.

Lemma upgraded_length_filter index ns :
  length (upgraded index ns)
  = 2 * length (filter (λ n, op_type n = "Dropout") ns).
Proof.
  revert index. induction ns as [|n ns IH]; intros index; [done|].
  rewrite filter_cons. simpl. destruct (decide _); simpl; rewrite IH; lia.
Qed.

Lemma py_del_all_enough {A} (idxs : list nat) (l : list A) :
  Forall (λ j, j + length idxs ≤ length l) idxs →
  ∃ l', py_del_all idxs l = Ok l' ∧ length l' + length idxs = length l.
Proof.
  revert l. induction idxs as [|i idxs IH]; intros l H; simpl.
  - exists l. split; [done|lia].
  - apply Forall_cons in H as [Hi H]. simpl in Hi. unfold py_del.
    destruct (decide _) as [Hlt|]; [|lia]. simpl.
    assert (Hlen : length (delete i l) = length l - 1)
      by (apply length_delete; by apply lookup_lt_is_Some_2).
    destruct (IH (delete i l)) as (l' & -> & Hl').
    + eapply Forall_impl; [exact H|]. simpl. intros j Hj. lia.
    + exists l'. split; [done|]. lia.
Qed.

(** The rounds of the loop over the nodes the model had at the start, when
    equal nodes are allowed. *)
Lemma dropout_loop_scan_any model0 rest :
  ∀ pre added dropouts index fuel,
  Forall (λ n, op_type n = "Dropout" → n_input n ≠ [] ∧ n_attribute n ≠ []) rest →
  ∃ index',
    process_dropout_loop (length rest + fuel) (length pre)
      (set_nodes model0 (pre ++ rest ++ added)) dropouts index
    = process_dropout_loop fuel (length pre + length rest)
        (set_nodes model0 (pre ++ rest ++ added ++ upgraded index rest))
        (dropouts ++ dropout_first_positions pre rest) index'.
Proof.
  induction rest as [|n rest IH]; intros pre added dropouts index fuel Hwf.
  - exists index. simpl. by rewrite !app_nil_r, Nat.add_0_r.
  - apply Forall_cons in Hwf as [Hn Hwf].
    assert (Hlook : (pre ++ n :: rest ++ added) !! length pre = Some n)
      by apply list_lookup_middle, eq_refl.
    assert (Hlen : length (pre ++ [n]) = S (length pre))
      by (rewrite length_app; simpl; lia).
    change ((n :: rest) ++ added) with (n :: rest ++ added).
    change (length (n :: rest) + fuel) with (S (length rest + fuel)).
    cbn [upgraded dropout_first_positions].
    destruct (decide (op_type n = "Dropout")) as [Hd|Hd].
    + destruct (Hn Hd) as [Hi Ha].
      rewrite (dropout_round _ _ _ n) by done. cbv zeta.
      destruct (list_find_elem_of (λ m, m = n) (pre ++ [n]) n) as [[j x] Hj];
        [apply elem_of_app; right; apply list_elem_of_here|done|].
      assert (Hidx : get_node_index
                (set_nodes model0
                   ((pre ++ n :: rest ++ added)
                    ++ [trainable_dropout index n; ratio_constant index n])) n
              = Some j).
      { unfold get_node_index. rewrite nodes_set_nodes.
        replace ((pre ++ n :: rest ++ added)
                 ++ [trainable_dropout index n; ratio_constant index n])
          with ((pre ++ [n]) ++ rest ++ added
                ++ [trainable_dropout index n; ratio_constant index n])
          by (repeat (rewrite <- !app_assoc; cbn [app]); done).
        by rewrite (list_find_app_l _ _ _ _ _ Hj). }
      rewrite Hidx, Hj. cbn [or_raise mbind res_bind from_option fst].
      destruct (IH (pre ++ [n])
                  (added ++ [trainable_dropout index n; ratio_constant index n])
                  (dropouts ++ [j]) (S index) fuel Hwf)
        as [index' IH'].
      exists index'. rewrite Hlen in IH'.
      rewrite <- !app_assoc in IH'. cbn [app] in IH'.
      repeat (rewrite <- !app_assoc; cbn [app]).
      rewrite IH'. f_equal. simpl. lia.
    + cbn [process_dropout_loop]. rewrite nodes_set_nodes, Hlook.
      destruct (decide _); [done|].
      destruct (IH (pre ++ [n]) added dropouts index fuel Hwf)
        as [index' IH'].
      exists index'. rewrite Hlen in IH'. rewrite <- !app_assoc in IH'.
      cbn [app] in IH'. rewrite IH'. f_equal. simpl. lia.
Qed.

(** X20. [process_dropout] succeeds on every graph whose Dropout nodes have
    an input and an attribute, equal nodes or not: the loop over the growing
    node list comes to its end and no deletion is out of range.  The result
    has one node more per Dropout of the graph (two added, one deleted), and
    the initializers, the graph inputs and the operator sets are
    untouched. *)
Theorem process_dropout_succeeds (model : ModelProto) :
  Forall (λ n, op_type n = "Dropout" → n_input n ≠ [] ∧ n_attribute n ≠ [])
         (nodes model) →
  ∃ model',
    process_dropout model = Ok model'
    ∧ length (nodes model')
      = length (nodes model)
        + length (filter (λ n, op_type n = "Dropout") (nodes model))
    ∧ initializers model' = initializers model
    ∧ inputs model' = inputs model
    ∧ opset_import model' = opset_import model.
Proof.
  intros Hwf. unfold process_dropout.
  set (ns := nodes model) in *.
  remember (length (upgraded 0 ns)
            + (2 * length ns - length (upgraded 0 ns))) as f eqn:Hf.
  destruct (dropout_loop_scan_any model ns [] [] [] 0 (S f) Hwf)
    as [index' Hscan].
  cbn [length app Nat.add] in Hscan. rewrite app_nil_r in Hscan.
  fold ns in Hscan. rewrite set_nodes_id in Hscan.
  replace (3 * length ns + 1) with (length ns + S f)
    by (pose proof (upgraded_length 0 ns); lia).
  rewrite Hscan, Hf.
  rewrite (dropout_loop_tail model (upgraded 0 ns) ns)
    by apply upgraded_not_dropout.
  cbn [mbind res_bind]. rewrite nodes_set_nodes.
  pose proof (sort_desc_Permutation id (dropout_first_positions [] ns)) as Hp.
  destruct (py_del_all_enough (sort_desc id (dropout_first_positions [] ns))
              (ns ++ upgraded 0 ns)) as (l' & -> & Hl').
  - rewrite (Permutation_length Hp), dropout_first_positions_length, Hp.
    eapply Forall_impl; [apply dropout_first_positions_bound|].
    simpl. intros j Hj. rewrite length_app, upgraded_length_filter. lia.
  - cbn [mbind res_bind]. eexists. split; [done|].
    rewrite nodes_set_nodes. split; [|done].
    rewrite (Permutation_length Hp), dropout_first_positions_length in Hl'.
    rewrite length_app, upgraded_length_filter in Hl'. lia.
Qed.

Lemma process_dropout_succeeds_witness :
  ∃ model', process_dropout equal_dropouts = Ok model'
            ∧ length (nodes model') = 5.
Proof.
  destruct (process_dropout_succeeds equal_dropouts) as (model' & H & Hl & _).
  - unfold equal_dropouts, nodes. simpl.
    repeat (apply Forall_cons; split); try apply Forall_nil; try exact I;
      intros Ht; (discriminate Ht || (split; discriminate)).
  - exists model'. split; [done|]. rewrite Hl. reflexivity.
Defined.

Lemma Exists_first {A} (P : A → Prop) `{!∀ x, Decision (P x)} (l : list A) :
  Exists P l →
  ∃ good x post, l = good ++ x :: post ∧ Forall (λ y, ¬ P y) good ∧ P x.
Proof.
  induction l as [|y l IH]; intros Hex; [by apply Exists_nil in Hex|].
  destruct (decide (P y)) as [Hy|Hy].
  - exists [], y, l. by repeat split.
  - apply Exists_cons in Hex as [Hex|Hex]; [done|].
    destruct (IH Hex) as (good & x & post & -> & Hg & Hx).
    exists (y :: good), x, post. repeat split; [by constructor|done].
Qed.

Lemma process_dropout_first_unreadable (model : ModelProto)
    (good post : list NodeProto) (d : NodeProto) :
  nodes model = good ++ d :: post →
  Forall (λ n, op_type n = "Dropout" → n_input n ≠ [] ∧ n_attribute n ≠ []) good →
  op_type d = "Dropout" → n_input d = [] ∨ n_attribute d = [] →
  process_dropout model = Raise IndexError.
Proof.
  intros Hns Hwf Hd Hbad. unfold process_dropout. rewrite Hns.
  destruct (dropout_loop_scan_any model good [] (d :: post) [] 0
              (S (2 * length good + 3 * length (d :: post))) Hwf)
    as [index' Hscan].
  cbn [length app Nat.add] in Hscan.
  replace (set_nodes model (good ++ d :: post)) with model in Hscan
    by (rewrite <- Hns; by rewrite set_nodes_id).
  replace (3 * length (good ++ d :: post) + 1)
    with (length good + S (2 * length good + 3 * S (length post)))
    by (rewrite length_app; simpl; lia).
  rewrite Hscan. cbn [process_dropout_loop]. rewrite nodes_set_nodes.
  rewrite list_lookup_middle by done.
  destruct (decide _); [|done].
  destruct Hbad as [E|E].
  - destruct (head (n_attribute d)); cbn [or_raise mbind res_bind add_const];
      [|done]. by rewrite E.
  - by rewrite E.
Qed.

Lemma process_dropout_some_unreadable (model : ModelProto) :
  Exists (λ n, op_type n = "Dropout" ∧ (n_input n = [] ∨ n_attribute n = []))
         (nodes model) →
  process_dropout model = Raise IndexError.
Proof.
  intros Hex. apply Exists_first in Hex as (good & d & post & Hns & Hg & Hd & Hbad);
    [|apply _].
  apply (process_dropout_first_unreadable model good post d); try done.
  eapply Forall_impl; [exact Hg|]. simpl. intros n Hn Ht. split.
  - intros E. apply Hn. auto.
  - intros E. apply Hn. auto.
Qed.

(** X21. A Dropout node without input or without attribute makes
    [process_dropout] fail with [IndexError] (the reads [node.attribute[0]]
    and [node.input[0]]), whatever the rest of the graph is. *)
Theorem process_dropout_unreadable (model : ModelProto) :
  Exists (λ n, op_type n = "Dropout" ∧ (n_input n = [] ∨ n_attribute n = []))
         (nodes model) →
  process_dropout model = Raise IndexError.
Proof. apply process_dropout_some_unreadable. Qed.

Lemma process_dropout_unreadable_witness :
  process_dropout dropout_without_ratio = Raise IndexError.
Proof.
  apply process_dropout_unreadable.
  unfold dropout_without_ratio, nodes. simpl.
  apply Exists_cons_tl, Exists_cons_hd. split; [done|]. by right.
Defined.

(** ** [transform_gpt2] *)

Lemma dropout_names_app l1 l2 :
  dropout_names (l1 ++ l2) = dropout_names l1 ++ dropout_names l2.
Proof. unfold dropout_names. by rewrite filter_app, fmap_app. Qed.

Lemma dropout_names_fmap (f : NodeProto → NodeProto) l :
  (∀ n, op_type (f n) = op_type n ∧ n_name (f n) = n_name n) →
  dropout_names (f <$> l) = dropout_names l.
Proof.
  intros Hf. unfold dropout_names. induction l as [|n l IH]; [done|].
  rewrite fmap_cons, !filter_cons. destruct (Hf n) as [Ho Hn]. rewrite Ho.
  destruct (decide _); rewrite ?fmap_cons, ?Hn; by rewrite IH.
Qed.

Lemma dropout_names_insert l i n n' :
  l !! i = Some n → op_type n' = op_type n → n_name n' = n_name n →
  dropout_names (<[i:=n']> l) = dropout_names l.
Proof.
  revert i. induction l as [|x l IH]; intros [|i] Hl Ho Hn; simpl in *; try done.
  - injection Hl as ->. unfold dropout_names. rewrite !filter_cons, Ho.
    destruct (decide _); rewrite ?fmap_cons, ?Hn; done.
  - specialize (IH i Hl Ho Hn). unfold dropout_names in *. rewrite !filter_cons.
    destruct (decide _); rewrite ?fmap_cons; by rewrite IH.
Qed.

Lemma filter_sublist_mono {A} (P : A → Prop) `{!∀ x, Decision (P x)}
    (l1 l2 : list A) :
  l1 `sublist_of` l2 → filter P l1 `sublist_of` filter P l2.
Proof.
  induction 1 as [|x l1 l2 _ IH|x l1 l2 _ IH]; [done| |];
    rewrite ?filter_cons; destruct (decide (P x)); try done; by constructor.
Qed.

Lemma dropout_names_sublist l1 l2 :
  l1 `sublist_of` l2 → dropout_names l1 `sublist_of` dropout_names l2.
Proof. intros H. unfold dropout_names. by apply fmap_sublist, filter_sublist_mono. Qed.

Lemma py_del_all_sublist {A} (idxs : list nat) (l l' : list A) :
  py_del_all idxs l = Ok l' → l' `sublist_of` l.
Proof.
  revert l. induction idxs as [|i idxs IH]; intros l H; simpl in H.
  - by injection H as <-.
  - unfold py_del in H. destruct (decide _); [|done]. simpl in H.
    apply IH in H. etrans; [exact H|]. apply sublist_delete.
Qed.

Lemma insert_shapes_dropout_names model new_nodes index model' :
  insert_shapes model new_nodes index = Ok model' →
  dropout_names (nodes model') = dropout_names (nodes model).
Proof.
  revert model index. induction new_nodes as [|[i shape] rest IH];
    intros model index H; simpl in H.
  - by injection H as <-.
  - destruct (np_asarray_int64 shape) as [arr| | |]; try done.
    cbn [mbind res_bind add_const] in H. rewrite !nodes_set_nodes in H.
    destruct (_ !! i) as [r|] eqn:E; try done.
    cbn [or_raise mbind res_bind head n_output] in H.
    destruct (decide _); try done. apply IH in H. rewrite H, nodes_set_nodes.
    rewrite (dropout_names_insert _ _ r) by done.
    rewrite dropout_names_app. unfold dropout_names at 2.
    rewrite filter_cons. destruct (decide _); [done|]. simpl.
    by rewrite app_nil_r.
Qed.

Lemma process_concat_dropout_names fuel model model' :
  process_concat fuel model = Ok model' →
  dropout_names (nodes model') `sublist_of` dropout_names (nodes model).
Proof.
  unfold process_concat. intros H.
  destruct (for_each _ _ _) as [[new_nodes delete_nodes]| | |]; try done.
  simpl in H. destruct (insert_shapes _ _ _) as [m1| | |] eqn:E1; try done.
  simpl in H. destruct (py_del_all _ _) as [ns| | |] eqn:E2; try done.
  injection H as <-. rewrite nodes_set_nodes.
  apply insert_shapes_dropout_names in E1. rewrite <- E1.
  by apply py_del_all_sublist, dropout_names_sublist in E2.
Qed.

Lemma fold_transpose_dropout_names perm model t model' :
  fold_transpose perm model t = Ok model' →
  dropout_names (nodes model') = dropout_names (nodes model).
Proof.
  unfold fold_transpose. intros H.
  destruct (_ !! _); try done. simpl in H.
  destruct (to_array _); try done. simpl in H.
  destruct (assert _) as [[]| | |]; try done. simpl in H.
  destruct perm as [perm|]; try done. simpl in H.
  destruct (np_transpose _ _); try done. simpl in H.
  destruct (head _); try done. simpl in H. injection H as <-.
  rewrite nodes_replace_input_arg. by apply dropout_names_fmap.
Qed.

Lemma fix_transpose_dropout_names model model' :
  fix_transpose model = Ok model' →
  dropout_names (nodes model') `sublist_of` dropout_names (nodes model).
Proof.
  unfold fix_transpose. intros H.
  destruct (for_each (transpose_step model) _ _) as [[transpose perm]| | |];
    try done.
  simpl in H.
  destruct (for_each (fold_transpose perm) _ _) as [m1| | |] eqn:E1; try done.
  simpl in H. destruct (py_del_all _ _) as [ns| | |] eqn:E2; try done.
  simpl in H.
  destruct (dead_weights _ _ _ _) as [old_ws old_graph_inputs].
  destruct (sort_desc_opt old_ws); try done. simpl in H.
  destruct (sort_desc_opt old_graph_inputs); try done. simpl in H.
  destruct (py_del_all_opt _ _); try done. simpl in H.
  destruct (py_del_all_opt _ _); try done. injection H as <-.
  change (dropout_names ns `sublist_of` dropout_names (nodes model)).
  apply py_del_all_sublist, dropout_names_sublist in E2.
  replace (dropout_names (nodes model)) with (dropout_names (nodes m1));
    [done|].
  revert E1.
  apply (for_each_Ok_inv
           (λ m, dropout_names (nodes m) = dropout_names (nodes model)));
    [|done].
  intros s x s' Hs Hx. apply fold_transpose_dropout_names in Hx. congruence.
Qed.

Lemma add_name_dropout_names (model : ModelProto) :
  NoDup (dropout_names (nodes (add_name model))).
Proof.
  apply (sublist_NoDup _ (n_name <$> nodes (add_name model)));
    [|apply fmap_sublist, sublist_filter].
  apply NoDup_alt. intros i j s Hi Hj.
  rewrite list_lookup_fmap in Hi, Hj.
  unfold add_name, set_nodes, nodes in Hi, Hj; simpl in Hi, Hj.
  rewrite add_name_loop_lookup in Hi, Hj. simpl in Hi, Hj.
  destruct (g_node (graph model) !! i) as [ni|]; [|done].
  destruct (g_node (graph model) !! j) as [nj|]; [|done].
  simpl in *. injection Hi as <-. injection Hj as Hj.
  by apply indexed_name_inj in Hj.
Qed.

Lemma process_dropout_distinct (model : ModelProto) :
  Forall (λ n, op_type n = "Dropout" → n_input n ≠ [] ∧ n_attribute n ≠ [])
         (nodes model) →
  NoDup (filter (λ n, op_type n = "Dropout") (nodes model)) →
  ∃ model',
    process_dropout model = Ok model'
    ∧ nodes model'
      = filter (λ n, op_type n ≠ "Dropout") (nodes model)
        ++ upgraded 0 (nodes model).
Proof.
  intros Hwf Hnd. unfold process_dropout.
  set (ns := nodes model) in *.
  remember (length (upgraded 0 ns)
            + (2 * length ns - length (upgraded 0 ns))) as f eqn:Hf.
  destruct (dropout_loop_scan model ns [] [] [] 0 (S f) Hwf Hnd)
    as [index' Hscan].
  cbn [length app Nat.add] in Hscan. rewrite app_nil_r in Hscan.
  fold ns in Hscan. rewrite set_nodes_id in Hscan.
  replace (3 * length ns + 1) with (length ns + S f)
    by (pose proof (upgraded_length 0 ns); lia).
  rewrite Hscan, Hf.
  rewrite (dropout_loop_tail model (upgraded 0 ns) ns)
    by apply upgraded_not_dropout.
  cbn [mbind res_bind]. rewrite nodes_set_nodes.
  rewrite py_del_all_sort_desc.
  - rewrite remove_dropout_positions. cbn [mbind res_bind].
    eexists. split; [done|]. by rewrite nodes_set_nodes.
  - apply dropout_positions_NoDup.
  - eapply Forall_impl; [apply dropout_positions_bounds|].
    simpl. intros j Hj. rewrite length_app. lia.
Qed.

(** X22. A graph that [transform_gpt2] returns holds no Dropout node.  The
    names that [add_name] gives keep the Dropout nodes apart as messages
    through [process_concat] and [fix_transpose], which change neither the
    name nor the type of a node, so [process_dropout] finds each Dropout at
    its own position and deletes exactly the Dropout nodes. *)
Theorem transform_gpt2_no_dropout (fuel : nat) (model model' : ModelProto) :
  transform_gpt2 fuel model = Ok model' →
  Forall (λ n, op_type n ≠ "Dropout") (nodes model').
Proof.
  unfold transform_gpt2. intros H.
  destruct (process_concat fuel (add_name model)) as [m1| | |] eqn:E1; try done.
  simpl in H. destruct (fix_transpose m1) as [m2| | |] eqn:E2; try done.
  simpl in H. destruct (process_dropout m2) as [m3| | |] eqn:E3; try done.
  simpl in H. unfold set_opset_version in H.
  destruct (opset_import m3) as [|o os]; [done|]. injection H as <-.
  change (Forall (λ n, op_type n ≠ "Dropout") (nodes m3)).
  assert (Hnd : NoDup (filter (λ n, op_type n = "Dropout") (nodes m2))).
  { apply (NoDup_fmap_1 n_name). fold (dropout_names (nodes m2)).
    apply (sublist_NoDup _ (dropout_names (nodes (add_name model))));
      [apply add_name_dropout_names|].
    etrans; [by apply fix_transpose_dropout_names|].
    by apply process_concat_dropout_names in E1. }
  assert (Hwf : Forall (λ n, op_type n = "Dropout"
                             → n_input n ≠ [] ∧ n_attribute n ≠ []) (nodes m2)).
  { destruct (decide (Exists (λ n, op_type n = "Dropout"
                       ∧ (n_input n = [] ∨ n_attribute n = [])) (nodes m2)))
      as [Hex|Hex].
    - apply process_dropout_some_unreadable in Hex. congruence.
    - apply not_Exists_Forall in Hex; [|apply _].
      eapply Forall_impl; [exact Hex|]. simpl. intros n Hn Ht. split.
      + intros E. apply Hn. auto.
      + intros E. apply Hn. auto. }
  destruct (process_dropout_distinct m2 Hwf Hnd) as (m3' & Hm3 & Hnodes).
  rewrite E3 in Hm3. injection Hm3 as <-. rewrite Hnodes.
  apply Forall_app. split; [|apply upgraded_not_dropout].
  apply Forall_forall. by intros n [? _]%list_elem_of_filter.
Qed.

Lemma transform_gpt2_no_dropout_witness :
  ∃ model', transform_gpt2 0 equal_dropouts = Ok model'
            ∧ Forall (λ n, op_type n ≠ "Dropout") (nodes model').
Proof.
  assert (∃ model', transform_gpt2 0 equal_dropouts = Ok model')
    as [model' H] by (eexists; vm_compute; reflexivity).
  exists model'. split; [done|].
  exact (transform_gpt2_no_dropout 0 equal_dropouts model' H).
Defined.

(** X23. A model whose [opset_import] is empty is never transformed: the
    final assignment of the version finds no first entry, so no run returns,
    and a run whose four passes go through ends in [IndexError]. *)
Theorem transform_gpt2_no_opset (fuel : nat) (model : ModelProto) :
  opset_import model = [] →
  (∀ model', transform_gpt2 fuel model ≠ Ok model')
  ∧ (∀ m1 m2 m3,
       process_concat fuel (add_name model) = Ok m1 →
       fix_transpose m1 = Ok m2 →
       process_dropout m2 = Ok m3 →
       transform_gpt2 fuel model = Raise IndexError).
Proof.
  intros Ho.
  assert (Hlast : ∀ m1 m2 m3,
            process_concat fuel (add_name model) = Ok m1 →
            fix_transpose m1 = Ok m2 →
            process_dropout m2 = Ok m3 →
            opset_import m3 = []).
  { intros m1 m2 m3 H1 H2 H3.
    apply process_concat_opset in H1. apply fix_transpose_opset in H2.
    apply process_dropout_opset in H3. rewrite H3, H2, H1. exact Ho. }
  split.
  - intros model' H. unfold transform_gpt2 in H.
    destruct (process_concat fuel (add_name model)) as [m1| | |] eqn:E1;
      try done.
    simpl in H. destruct (fix_transpose m1) as [m2| | |] eqn:E2; try done.
    simpl in H. destruct (process_dropout m2) as [m3| | |] eqn:E3; try done.
    simpl in H. unfold set_opset_version in H.
    by rewrite (Hlast m1 m2 m3) in H.
  - intros m1 m2 m3 H1 H2 H3. unfold transform_gpt2.
    rewrite H1. simpl. rewrite H2. simpl. rewrite H3. simpl.
    unfold set_opset_version. by rewrite (Hlast m1 m2 m3).
Qed.

Lemma transform_gpt2_no_opset_witness :
  transform_gpt2 0 (mkModel (graph two_dropouts) []) = Raise IndexError.
Proof.
  destruct (transform_gpt2_no_opset 0 (mkModel (graph two_dropouts) []) eq_refl)
    as [_ H].
  eapply H; vm_compute; reflexivity.
Defined.

(** ** [get_nodes_to_remove] *)

Lemma find_const_input_Some model ins c :
  find_const_input model ins = Some c →
  op_type c = "Constant" ∧ ∃ a, a ∈ ins ∧ find_input_node model a = Some c.
Proof.
  induction ins as [|a ins IH]; intros H; simpl in H; [done|].
  destruct (find_input_node model a) as [p|] eqn:E.
  - destruct (decide _) as [Hc|].
    + injection H as <-. split; [done|]. exists a. split; [|done].
      apply list_elem_of_here.
    + destruct (IH H) as [Hc (b & Hb & Hp)]. split; [done|]. exists b.
      split; [|done]. by apply list_elem_of_further.
  - destruct (IH H) as [Hc (b & Hb & Hp)]. split; [done|]. exists b.
    split; [|done]. by apply list_elem_of_further.
Qed.

Lemma find_const_input_None model ins :
  Forall (λ a, ∀ p, find_input_node model a = Some p → op_type p ≠ "Constant")
         ins →
  find_const_input model ins = None.
Proof.
  induction 1 as [|a ins Ha _ IH]; simpl; [done|].
  destruct (find_input_node model a) as [p|]; [|done].
  destruct (decide _) as [Hc|]; [|done]. by destruct (Ha p eq_refl).
Qed.

(** X24. What [get_nodes_to_remove] returns is a list of four nodes of the
    graph: the unique producer of [input_id], the unique producer of its
    first input, the comparison, which is that node when it is a Less and
    the unique producer of its first input when it is a Not, and a Constant
    that is the unique producer of one of the inputs of the comparison. *)
Theorem get_nodes_to_remove_result (global_model : option ModelProto)
    (input_id : string) (l : list NodeProto) :
  get_nodes_to_remove global_model input_id = Ok l →
  ∃ model cast_node3 not_node3 less_node const_node,
    global_model = Some model
    ∧ l = [cast_node3; not_node3; less_node; const_node]
    ∧ Forall (λ n, n ∈ nodes model) l
    ∧ find_input_node model input_id = Some cast_node3
    ∧ (∃ a, head (n_input cast_node3) = Some a
            ∧ find_input_node model a = Some not_node3)
    ∧ (op_type not_node3 = "Less" ∧ less_node = not_node3
       ∨ op_type not_node3 = "Not"
         ∧ ∃ b, head (n_input not_node3) = Some b
                ∧ find_input_node model b = Some less_node)
    ∧ op_type const_node = "Constant"
    ∧ ∃ c, c ∈ n_input less_node ∧ find_input_node model c = Some const_node.
Proof.
  unfold get_nodes_to_remove. intros H.
  destruct global_model as [model|]; [|done]. simpl in H.
  destruct (find_input_node model input_id) as [cast_node3|] eqn:E1; [|done].
  simpl in H. destruct (head (n_input cast_node3)) as [a|] eqn:E2; [|done].
  simpl in H. destruct (find_input_node model a) as [not_node3|] eqn:E3; [|done].
  simpl in H.
  assert (Hless : ∃ less_node,
    (op_type not_node3 = "Less" ∧ less_node = not_node3
     ∨ op_type not_node3 = "Not"
       ∧ ∃ b, head (n_input not_node3) = Some b
              ∧ find_input_node model b = Some less_node)
    ∧ (const_node ← or_raise NameError
                      (find_const_input model (n_input less_node));
       Ok [cast_node3; not_node3; less_node; const_node]) = Ok l).
  { destruct (decide (op_type not_node3 = "Not")) as [Hn|Hn].
    - destruct (head (n_input not_node3)) as [b|] eqn:E4; [|done]. simpl in H.
      destruct (find_input_node model b) as [less_node|] eqn:E5; [|done].
      simpl in H. exists less_node. split; [|done]. right. eauto.
    - destruct (bool_decide (op_type not_node3 = "Less")) eqn:E4; [|done].
      apply bool_decide_eq_true in E4. simpl in H. exists not_node3.
      split; [|done]. by left. }
  clear H. destruct Hless as (less_node & Hless & H).
  destruct (find_const_input model (n_input less_node)) as [const_node|] eqn:E6;
    [|done].
  simpl in H. injection H as <-.
  apply find_const_input_Some in E6 as [Hc (c & Hin & Hp)].
  exists model, cast_node3, not_node3, less_node, const_node.
  split; [done|]. split; [done|]. split.
  - repeat (apply Forall_cons; split); try by apply Forall_nil.
    + by apply find_input_node_elem in E1.
    + by apply find_input_node_elem in E3.
    + destruct Hless as [[_ ->]|[_ (b & _ & Hb)]].
      * by apply find_input_node_elem in E3.
      * by apply find_input_node_elem in Hb.
    + by apply find_input_node_elem in Hp.
  - repeat split; eauto.
Qed.

Lemma get_nodes_to_remove_result_witness :
  ∃ c, get_nodes_to_remove (Some mask_chain) "mask"
       = Ok [mkNode "Cast" "" ["nt"] ["mask"] [];
             mkNode "Not" "" ["lt"] ["nt"] [];
             mkNode "Less" "" ["x"; "k"] ["lt"] [];
             mkNode "Constant" "" [] ["k"] []]
       ∧ c ∈ ["x"; "k"]
       ∧ find_input_node mask_chain c = Some (mkNode "Constant" "" [] ["k"] []).
Proof.
  assert (get_nodes_to_remove (Some mask_chain) "mask"
          = Ok [mkNode "Cast" "" ["nt"] ["mask"] [];
                mkNode "Not" "" ["lt"] ["nt"] [];
                mkNode "Less" "" ["x"; "k"] ["lt"] [];
                mkNode "Constant" "" [] ["k"] []]) as H by reflexivity.
  destruct (get_nodes_to_remove_result _ _ _ H)
    as (model & n1 & n2 & n3 & n4 & Hm & Hl & _ & _ & _ & _ & _ & c & Hc & Hp).
  injection Hm as <-. injection Hl as _ _ <- <-. exists c. by repeat split.
Defined.

(** X25. When the comparison that [get_nodes_to_remove] reaches has no
    input whose unique producer is a Constant, the loop never binds
    [const_node] and the [return] raises [UnboundLocalError], a
    [NameError]: the function does not return a shorter list. *)
Theorem get_nodes_to_remove_no_constant (model : ModelProto) (input_id a : string)
    (cast_node3 less_node : NodeProto) :
  find_input_node model input_id = Some cast_node3 →
  head (n_input cast_node3) = Some a →
  find_input_node model a = Some less_node →
  op_type less_node = "Less" →
  Forall (λ c, ∀ p, find_input_node model c = Some p → op_type p ≠ "Constant")
         (n_input less_node) →
  get_nodes_to_remove (Some model) input_id = Raise NameError.
Proof.
  intros H1 H2 H3 Hl Hno. unfold get_nodes_to_remove. simpl.
  rewrite H1. simpl. rewrite H2. simpl. rewrite H3. simpl.
  destruct (decide _) as [Hn|_]; [by rewrite Hl in Hn|].
  rewrite bool_decide_eq_true_2 by done. simpl.
  by rewrite find_const_input_None.
Qed.

Lemma get_nodes_to_remove_no_constant_witness :
  get_nodes_to_remove (Some mask_of_inputs) "mask" = Raise NameError.
Proof.
  apply (get_nodes_to_remove_no_constant mask_of_inputs "mask" "lt"
           (mkNode "Cast" "" ["lt"] ["mask"] [])
           (mkNode "Less" "" ["x"; "y"] ["lt"] [])); try reflexivity.
  repeat (apply Forall_cons; split); try apply Forall_nil; try exact I;
    intros p Hp; discriminate Hp.
Defined.
